(** * terminal_puyo: the game engine, embedded and verified

    The Go engine ([Field], [PuyoPair], [Game] and their methods) works on
    one mutable [*Game]; here every method becomes a function from the state
    before the call to the state after it (paired with the Go return value
    where there is one).  Go's [int] is taken to be the 64-bit
    two's-complement integer of the usual targets: sums, differences and
    products wrap, [/] truncates, [%] is the truncated remainder. *)

From stdpp Require Import base decidable countable list gmap sets.
From Stdlib Require Import ZArith Lia.

Open Scope Z_scope.

(** ** Go [int] arithmetic *)

Definition int_min : Z := - 2 ^ 63.
Definition int_max : Z := 2 ^ 63 - 1.

Definition wrap (z : Z) : Z := (z + 2 ^ 63) mod 2 ^ 64 - 2 ^ 63.

Definition int_add (a b : Z) : Z := wrap (a + b).
Definition int_sub (a b : Z) : Z := wrap (a - b).
Definition int_mul (a b : Z) : Z := wrap (a * b).
Definition int_div (a b : Z) : Z := wrap (Z.quot a b).
Definition int_rem (a b : Z) : Z := Z.rem a b.

Definition is_int (z : Z) : Prop := int_min <= z <= int_max.

(** ** Colors, positions, the field *)

(** [type Color int] with [Empty Color = iota; Red; Green; Blue; Yellow; Purple]. *)
Inductive Color : Type := Empty | Red | Green | Blue | Yellow | Purple.

Global Instance Color_eq_dec : EqDecision Color.
Proof. solve_decision. Defined.

Definition FieldWidth : Z := 6.
Definition FieldHeight : Z := 12.
Definition MinChain : Z := 4.

Record Position : Type := mkPosition { X : Z; Y : Z }.

Global Instance Position_eq_dec : EqDecision Position.
Proof. solve_decision. Defined.

Global Instance Position_countable : Countable Position.
Proof.
  refine (inj_countable' (fun p => (X p, Y p)) (fun xy => mkPosition xy.1 xy.2) _).
  intros []; reflexivity.
Defined.

Record Puyo : Type := mkPuyo { PColor : Color }.

Record PuyoPair : Type := mkPuyoPair {
  Main : Puyo;
  Sub : Puyo;
  Pos : Position;
  Rotate : Z
}.

(** [Grid [FieldHeight][FieldWidth]Color]: rows, each a list of cells.  The
    Go array has exactly 12 rows of 6 cells; [grid_wf] records that. *)
Abbreviation Grid := (list (list Color)).

Definition grid_wf (gr : Grid) : Prop :=
  length gr = Z.to_nat FieldHeight /\
  Forall (fun row => length row = Z.to_nat FieldWidth) gr.

Record Field : Type := mkField { FGrid : Grid }.

(** [Grid[y][x]] as a read.  Every read in the source sits behind a bounds
    test, so the default is never what the program sees. *)
Definition cell (gr : Grid) (x y : Z) : Color :=
  match gr !! Z.to_nat y with
  | Some row => default Empty (row !! Z.to_nat x)
  | None => Empty
  end.

(** [Grid[y][x] = c] as a write (again only reached in range). *)
Definition set_cell (gr : Grid) (x y : Z) (c : Color) : Grid :=
  match gr !! Z.to_nat y with
  | Some row => <[Z.to_nat y := <[Z.to_nat x := c]> row]> gr
  | None => gr
  end.

Definition NewField : Field :=
  mkField (replicate (Z.to_nat FieldHeight) (replicate (Z.to_nat FieldWidth) Empty)).

Definition IsValidPosition (f : Field) (x y : Z) : bool :=
  if (x <? 0) || (x >=? FieldWidth) || (y >=? FieldHeight) then false
  else if y <? 0 then true
  else bool_decide (cell (FGrid f) x y = Empty).

Definition PlacePuyo (f : Field) (x y : Z) (color : Color) : Field :=
  if (x >=? 0) && (x <? FieldWidth) && (y >=? 0) && (y <? FieldHeight)
  then mkField (set_cell (FGrid f) x y color)
  else f.

Definition GetSubPosition (p : PuyoPair) : Position :=
  if Rotate p =? 0 then mkPosition (X (Pos p)) (int_sub (Y (Pos p)) 1)
  else if Rotate p =? 1 then mkPosition (int_add (X (Pos p)) 1) (Y (Pos p))
  else if Rotate p =? 2 then mkPosition (X (Pos p)) (int_add (Y (Pos p)) 1)
  else if Rotate p =? 3 then mkPosition (int_sub (X (Pos p)) 1) (Y (Pos p))
  else mkPosition (X (Pos p)) (int_sub (Y (Pos p)) 1).

(** ** The game state *)

Inductive GameState : Type := StateNormal | StateClearing | StateDropping.

Global Instance GameState_eq_dec : EqDecision GameState.
Proof. solve_decision. Defined.

Record HighScore : Type := mkHighScore { HScore : Z; HLevel : Z; HChains : Z }.

(** [*rand.Rand]: the generator is an oracle, the sequence of raw draws it
    is going to hand out and how many have been consumed. *)
Record Rand : Type := mkRand { draws : nat -> Z; cursor : nat }.

Definition Intn (r : Rand) (n : Z) : Z * Rand :=
  (draws r (cursor r) mod n, mkRand (draws r) (S (cursor r))).

Record Game : Type := mkGame {
  GField : Field;
  Current : option PuyoPair;
  Next : option PuyoPair;
  Score : Z;
  Level : Z;
  GameOver : bool;
  Paused : bool;
  rand : Rand;
  ChainCount : Z;
  TotalChains : Z;
  LinesCleared : Z;
  DropSpeed : Z;
  GHighScore : option HighScore;
  State : GameState;
  CurrentChainNum : Z;
  GroundFrames : Z;
  MaxGroundFrames : Z;
  ColorCount : Z
}.

(** Field assignments [g.F = v]. *)
Definition set_Field (v : Field) (g : Game) : Game :=
  mkGame v (Current g) (Next g) (Score g) (Level g) (GameOver g) (Paused g)
    (rand g) (ChainCount g) (TotalChains g) (LinesCleared g) (DropSpeed g)
    (GHighScore g) (State g) (CurrentChainNum g) (GroundFrames g)
    (MaxGroundFrames g) (ColorCount g).
Definition set_Current (v : option PuyoPair) (g : Game) : Game :=
  mkGame (GField g) v (Next g) (Score g) (Level g) (GameOver g) (Paused g)
    (rand g) (ChainCount g) (TotalChains g) (LinesCleared g) (DropSpeed g)
    (GHighScore g) (State g) (CurrentChainNum g) (GroundFrames g)
    (MaxGroundFrames g) (ColorCount g).
Definition set_Next (v : option PuyoPair) (g : Game) : Game :=
  mkGame (GField g) (Current g) v (Score g) (Level g) (GameOver g) (Paused g)
    (rand g) (ChainCount g) (TotalChains g) (LinesCleared g) (DropSpeed g)
    (GHighScore g) (State g) (CurrentChainNum g) (GroundFrames g)
    (MaxGroundFrames g) (ColorCount g).
Definition set_Score (v : Z) (g : Game) : Game :=
  mkGame (GField g) (Current g) (Next g) v (Level g) (GameOver g) (Paused g)
    (rand g) (ChainCount g) (TotalChains g) (LinesCleared g) (DropSpeed g)
    (GHighScore g) (State g) (CurrentChainNum g) (GroundFrames g)
    (MaxGroundFrames g) (ColorCount g).
Definition set_Level (v : Z) (g : Game) : Game :=
  mkGame (GField g) (Current g) (Next g) (Score g) v (GameOver g) (Paused g)
    (rand g) (ChainCount g) (TotalChains g) (LinesCleared g) (DropSpeed g)
    (GHighScore g) (State g) (CurrentChainNum g) (GroundFrames g)
    (MaxGroundFrames g) (ColorCount g).
Definition set_GameOver (v : bool) (g : Game) : Game :=
  mkGame (GField g) (Current g) (Next g) (Score g) (Level g) v (Paused g)
    (rand g) (ChainCount g) (TotalChains g) (LinesCleared g) (DropSpeed g)
    (GHighScore g) (State g) (CurrentChainNum g) (GroundFrames g)
    (MaxGroundFrames g) (ColorCount g).
Definition set_Paused (v : bool) (g : Game) : Game :=
  mkGame (GField g) (Current g) (Next g) (Score g) (Level g) (GameOver g) v
    (rand g) (ChainCount g) (TotalChains g) (LinesCleared g) (DropSpeed g)
    (GHighScore g) (State g) (CurrentChainNum g) (GroundFrames g)
    (MaxGroundFrames g) (ColorCount g).
Definition set_rand (v : Rand) (g : Game) : Game :=
  mkGame (GField g) (Current g) (Next g) (Score g) (Level g) (GameOver g) (Paused g)
    v (ChainCount g) (TotalChains g) (LinesCleared g) (DropSpeed g)
    (GHighScore g) (State g) (CurrentChainNum g) (GroundFrames g)
    (MaxGroundFrames g) (ColorCount g).
Definition set_ChainCount (v : Z) (g : Game) : Game :=
  mkGame (GField g) (Current g) (Next g) (Score g) (Level g) (GameOver g) (Paused g)
    (rand g) v (TotalChains g) (LinesCleared g) (DropSpeed g)
    (GHighScore g) (State g) (CurrentChainNum g) (GroundFrames g)
    (MaxGroundFrames g) (ColorCount g).
Definition set_TotalChains (v : Z) (g : Game) : Game :=
  mkGame (GField g) (Current g) (Next g) (Score g) (Level g) (GameOver g) (Paused g)
    (rand g) (ChainCount g) v (LinesCleared g) (DropSpeed g)
    (GHighScore g) (State g) (CurrentChainNum g) (GroundFrames g)
    (MaxGroundFrames g) (ColorCount g).
Definition set_LinesCleared (v : Z) (g : Game) : Game :=
  mkGame (GField g) (Current g) (Next g) (Score g) (Level g) (GameOver g) (Paused g)
    (rand g) (ChainCount g) (TotalChains g) v (DropSpeed g)
    (GHighScore g) (State g) (CurrentChainNum g) (GroundFrames g)
    (MaxGroundFrames g) (ColorCount g).
Definition set_DropSpeed (v : Z) (g : Game) : Game :=
  mkGame (GField g) (Current g) (Next g) (Score g) (Level g) (GameOver g) (Paused g)
    (rand g) (ChainCount g) (TotalChains g) (LinesCleared g) v
    (GHighScore g) (State g) (CurrentChainNum g) (GroundFrames g)
    (MaxGroundFrames g) (ColorCount g).
Definition set_State (v : GameState) (g : Game) : Game :=
  mkGame (GField g) (Current g) (Next g) (Score g) (Level g) (GameOver g) (Paused g)
    (rand g) (ChainCount g) (TotalChains g) (LinesCleared g) (DropSpeed g)
    (GHighScore g) v (CurrentChainNum g) (GroundFrames g)
    (MaxGroundFrames g) (ColorCount g).
Definition set_CurrentChainNum (v : Z) (g : Game) : Game :=
  mkGame (GField g) (Current g) (Next g) (Score g) (Level g) (GameOver g) (Paused g)
    (rand g) (ChainCount g) (TotalChains g) (LinesCleared g) (DropSpeed g)
    (GHighScore g) (State g) v (GroundFrames g)
    (MaxGroundFrames g) (ColorCount g).
Definition set_GroundFrames (v : Z) (g : Game) : Game :=
  mkGame (GField g) (Current g) (Next g) (Score g) (Level g) (GameOver g) (Paused g)
    (rand g) (ChainCount g) (TotalChains g) (LinesCleared g) (DropSpeed g)
    (GHighScore g) (State g) (CurrentChainNum g) v
    (MaxGroundFrames g) (ColorCount g).

(** The current grid, [g.Field.Grid]. *)
Definition grid_of (g : Game) : Grid := FGrid (GField g).

(** ** Movement *)

Definition TogglePause (g : Game) : Game :=
  if negb (bool_decide (State g = StateNormal)) || GameOver g then g
  else set_Paused (negb (Paused g)) g.

Definition CanMove (g : Game) (dx dy rotate : Z) : bool :=
  match Current g with
  | None => false
  | Some cur =>
    let newX := int_add (X (Pos cur)) dx in
    let newY := int_add (Y (Pos cur)) dy in
    let newRotate := int_rem (int_add (int_add (Rotate cur) rotate) 4) 4 in
    if negb (IsValidPosition (GField g) newX newY) then false
    else
      let testPair := mkPuyoPair (mkPuyo Empty) (mkPuyo Empty)
                                 (mkPosition newX newY) newRotate in
      let subPos := GetSubPosition testPair in
      IsValidPosition (GField g) (X subPos) (Y subPos)
  end.

(** The three assignments every accepted branch of [Move] performs:
    [Pos.X += ax; Pos.Y += ay; Rotate = (Rotate + rotate + 4) % 4]. *)
Definition shift_current (g : Game) (ax ay rotate : Z) : Game :=
  match Current g with
  | None => g
  | Some cur =>
    set_Current
      (Some (mkPuyoPair (Main cur) (Sub cur)
               (mkPosition (int_add (X (Pos cur)) ax) (int_add (Y (Pos cur)) ay))
               (int_rem (int_add (int_add (Rotate cur) rotate) 4) 4))) g
  end.

Definition Move (g : Game) (dx dy rotate : Z) : bool * Game :=
  if CanMove g dx dy rotate then
    let g1 := shift_current g dx dy rotate in
    if negb (dx =? 0) || negb (rotate =? 0)
    then (true, set_GroundFrames 0 g1)
    else (true, g1)
  else if negb (rotate =? 0) then
    if CanMove g (int_sub dx 1) dy rotate then
      (true, set_GroundFrames 0 (shift_current g (int_sub dx 1) dy rotate))
    else if CanMove g (int_add dx 1) dy rotate then
      (true, set_GroundFrames 0 (shift_current g (int_add dx 1) dy rotate))
    else if CanMove g dx (int_sub dy 1) rotate then
      (true, set_GroundFrames 0 (shift_current g dx (int_sub dy 1) rotate))
    else (false, g)
  else (false, g).

Definition Drop (g : Game) : bool * Game :=
  let '(ok, g1) := Move g 0 1 0 in
  if ok then (true, set_GroundFrames 0 g1) else (false, g1).

Definition IsOnGround (g : Game) : bool :=
  match Current g with
  | None => false
  | Some _ => negb (CanMove g 0 1 0)
  end.

Definition ShouldLock (g : Game) : bool := GroundFrames g >=? MaxGroundFrames g.

(** [for g.Move(0, 1, 0) { }]: one Go loop iteration per unit of fuel.  An
    accepted step puts the main cell at a row below [FieldHeight] and one
    further down than before, so [hard_drop_fuel] iterations always reach
    the failing test (lemma [drop_loop_stops]). *)
Fixpoint drop_loop (fuel : nat) (g : Game) : Game :=
  match fuel with
  | O => g
  | S fuel' =>
    let '(ok, g1) := Move g 0 1 0 in
    if ok then drop_loop fuel' g1 else g1
  end.

Definition hard_drop_fuel (g : Game) : nat :=
  match Current g with
  | None => O
  | Some cur => Z.to_nat (FieldHeight - int_add (Y (Pos cur)) 1)
  end.

Definition HardDrop (g : Game) : Game :=
  let g1 := drop_loop (hard_drop_fuel g) g in
  set_GroundFrames (MaxGroundFrames g1) g1.

Definition LockPair (g : Game) : Game :=
  match Current g with
  | None => g
  | Some cur =>
    let f1 := PlacePuyo (GField g) (X (Pos cur)) (Y (Pos cur)) (PColor (Main cur)) in
    let subPos := GetSubPosition cur in
    let f2 := PlacePuyo f1 (X subPos) (Y subPos) (PColor (Sub cur)) in
    set_CurrentChainNum 0
      (set_ChainCount 0
        (set_State StateDropping
          (set_GroundFrames 0
            (set_Current None
              (set_Field f2 g)))))
  end.

(** ** Spawning *)

Definition generatePuyoPair (g : Game) : PuyoPair * Game :=
  let colors :=
    if ColorCount g =? 4 then [Red; Green; Blue; Yellow]
    else [Red; Green; Blue; Yellow; Purple] in
  let n := Z.of_nat (length colors) in
  let '(i, r1) := Intn (rand g) n in
  let '(j, r2) := Intn r1 n in
  (mkPuyoPair (mkPuyo (default Empty (colors !! Z.to_nat i)))
              (mkPuyo (default Empty (colors !! Z.to_nat j)))
              (mkPosition (Z.quot FieldWidth 2) 0) 0,
   set_rand r2 g).

(** [g.Next] is never nil once [NewGameWithColors] has run; on a nil [Next]
    the Go code would stop with a nil dereference at [GetSubPosition], and
    the embedding stops there too, with the three assignments done. *)
Definition SpawnNewPair (g : Game) : Game :=
  let g1 := set_Current (Next g) g in
  let '(p, g2) := generatePuyoPair g1 in
  let g3 := set_ChainCount 0 (set_Next (Some p) g2) in
  match Current g3 with
  | None => g3
  | Some cur =>
    let subPos := GetSubPosition cur in
    if negb (IsValidPosition (GField g3) (X (Pos cur)) (Y (Pos cur)))
       || negb (IsValidPosition (GField g3) (X subPos) (Y subPos))
    then set_GameOver true g3
    else g3
  end.

Definition millisecond : Z := 1000000.

(** [r] stands for [rand.New(rand.NewSource(time.Now().UnixNano()))]. *)
Definition NewGameWithColors (colorCount : Z) (r : Rand) : Game :=
  let colorCount :=
    if negb (colorCount =? 4) && negb (colorCount =? 5) then 4 else colorCount in
  let g := mkGame NewField None None 0 1 false false r 0 0 0
                  (500 * millisecond) None StateNormal 0 0 32 colorCount in
  let '(p, g1) := generatePuyoPair g in
  SpawnNewPair (set_Next (Some p) g1).

Definition NewGame (r : Rand) : Game := NewGameWithColors 4 r.

(** ** Chain resolution *)

(** [0, 1, ..., n-1], the values a Go [for i := 0; i < n; i++] runs through. *)
Definition countUp (n : Z) : list Z := Z.of_nat <$> seq 0 (Z.to_nat n).

(** [n-1, ..., 1, 0], for [for i := n-1; i >= 0; i--]. *)
Definition countDown (n : Z) : list Z := reverse (countUp n).

(** Row-major scan order of the two nested loops over [y] then [x]. *)
Definition scan_order : list Position :=
  flat_map (fun y => (fun x => mkPosition x y) <$> countUp FieldWidth)
           (countUp FieldHeight).

(** Depth budget of the recursive flood fill: each nested call has marked
    one more cell, and there are [FieldWidth * FieldHeight] cells. *)
Definition fill_depth : nat := Z.to_nat (FieldWidth * FieldHeight + 1).

(** [visited map[Position]bool] only ever stores [true]: it is the set of its
    keys.  The map is shared by all recursive calls, so it is threaded through
    them in call order. *)
Fixpoint findConnectedGroup (fuel : nat) (gr : Grid) (x y : Z) (color : Color)
    (visited : gset Position) : gset Position :=
  match fuel with
  | O => visited
  | S fuel' =>
    let pos := mkPosition x y in
    if (x <? 0) || (x >=? FieldWidth) || (y <? 0) || (y >=? FieldHeight) then visited
    else if negb (bool_decide (cell gr x y = color)) || bool_decide (pos ∈ visited)
    then visited
    else
      let v0 := {[pos]} ∪ visited in
      let v1 := findConnectedGroup fuel' gr (int_add x 1) y color v0 in
      let v2 := findConnectedGroup fuel' gr (int_sub x 1) y color v1 in
      let v3 := findConnectedGroup fuel' gr x (int_add y 1) color v2 in
      findConnectedGroup fuel' gr x (int_sub y 1) color v3
  end.

(** [for p := range group { visited[p] = true }] *)
Definition mark_visited (group visited : gset Position) : gset Position :=
  foldr (fun p v => {[p]} ∪ v) visited (elements group).

(** [for p := range group { g.Field.Grid[p.Y][p.X] = Empty }] *)
Definition clear_group (gr : Grid) (group : gset Position) : Grid :=
  foldr (fun p gr' => set_cell gr' (X p) (Y p) Empty) gr (elements group).

Fixpoint hasClearable_scan (gr : Grid) (ps : list Position)
    (visited : gset Position) : bool :=
  match ps with
  | [] => false
  | pos :: rest =>
    if negb (bool_decide (cell gr (X pos) (Y pos) = Empty))
       && negb (bool_decide (pos ∈ visited))
    then
      let group := findConnectedGroup fill_depth gr (X pos) (Y pos)
                     (cell gr (X pos) (Y pos)) ∅ in
      let visited' := mark_visited group visited in
      if Z.of_nat (size group) >=? MinChain then true
      else hasClearable_scan gr rest visited'
    else hasClearable_scan gr rest visited
  end.

Definition hasClearablePuyos (g : Game) : bool :=
  hasClearable_scan (grid_of g) scan_order ∅.

(** State of the scan in [clearPuyos]: the grid being edited, the [visited]
    map and the [cleared] flag. *)
Definition clear_step (st : Grid * gset Position * bool) (pos : Position)
    : Grid * gset Position * bool :=
  let '(gr, visited, cleared) := st in
  if negb (bool_decide (cell gr (X pos) (Y pos) = Empty))
     && negb (bool_decide (pos ∈ visited))
  then
    let group := findConnectedGroup fill_depth gr (X pos) (Y pos)
                   (cell gr (X pos) (Y pos)) ∅ in
    let visited' := mark_visited group visited in
    if Z.of_nat (size group) >=? MinChain
    then (clear_group gr group, visited', true)
    else (gr, visited', cleared)
  else st.

Definition clear_scan (gr : Grid) : Grid * gset Position * bool :=
  fold_left clear_step scan_order (gr, ∅, false).

Definition clearPuyos (g : Game) : bool * Game :=
  let '(gr, _, cleared) := clear_scan (grid_of g) in
  (cleared, set_Field (mkField gr) g).

(** One iteration of the inner loop of [applyGravity], on column [x]: the
    state is the grid and [writeY]. *)
Definition gravity_step (x : Z) (st : Grid * Z) (y : Z) : Grid * Z :=
  let '(gr, writeY) := st in
  if negb (bool_decide (cell gr x y = Empty)) then
    let gr' :=
      if negb (writeY =? y)
      then set_cell (set_cell gr x writeY (cell gr x y)) x y Empty
      else gr in
    (gr', int_sub writeY 1)
  else st.

Definition gravity_column (gr : Grid) (x : Z) : Grid :=
  fst (fold_left (gravity_step x) (countDown FieldHeight) (gr, int_sub FieldHeight 1)).

Definition gravity_grid (gr : Grid) : Grid :=
  fold_left gravity_column (countUp FieldWidth) gr.

Definition applyGravity (g : Game) : Game :=
  set_Field (mkField (gravity_grid (grid_of g))) g.

Section Scoring.

(** [time.Duration(float64(500*time.Millisecond) / (1.0 + float64(level)*0.1))]
    is a float64 computation; the embedding takes its result as given. *)
Variable dropSpeedForLevel : Z -> Z.

(** [chainBonus := 1; for i := 1; i < n; i++ { chainBonus *= 2 }] *)
Definition chainBonus (n : Z) : Z :=
  Nat.iter (Z.to_nat (n - 1)) (fun b => int_mul b 2) 1.

Definition calculateScore (g : Game) : Game :=
  if ChainCount g >? 0 then
    let g1 :=
      set_Score (int_add (Score g)
                   (int_mul (int_mul 100 (chainBonus (ChainCount g))) (ChainCount g))) g in
    let g2 := set_LinesCleared (int_add (LinesCleared g1) (ChainCount g1)) g1 in
    let newLevel := int_add (int_div (LinesCleared g2) 10) 1 in
    if newLevel >? Level g2 then
      let g3 := set_Level newLevel g2 in
      if Level g3 <? 20
      then set_DropSpeed (dropSpeedForLevel (Level g3)) g3
      else set_DropSpeed (100 * millisecond) g3
    else g2
  else g.

Definition ProcessChainStep (g : Game) : bool * Game :=
  match State g with
  | StateDropping =>
    let g1 := applyGravity g in
    if hasClearablePuyos g1 then
      let g2 := set_State StateClearing g1 in
      let g3 := set_ChainCount (int_add (ChainCount g2) 1) g2 in
      (true, set_CurrentChainNum (ChainCount g3) g3)
    else
      let g2 := calculateScore g1 in
      let g3 := set_State StateNormal g2 in
      (false, SpawnNewPair g3)
  | StateClearing =>
    let '(cleared, g1) := clearPuyos g in
    let g2 := if cleared then set_TotalChains (int_add (TotalChains g1) 1) g1 else g1 in
    (true, set_State StateDropping g2)
  | StateNormal => (false, g)
  end.

End Scoring.

(** ** Specification-side definitions *)

(** The move rule as the design text words it.

    The sub-cell offset is a function of the rotation state alone: 0 is up,
    1 right, 2 down, 3 left (any other value counts as up). *)
Definition sub_offset (r : Z) : Z * Z :=
  if r =? 1 then (1, 0)
  else if r =? 2 then (0, 1)
  else if r =? 3 then (-1, 0)
  else (0, -1).

Definition sub_cell (c : PuyoPair) : Position :=
  mkPosition (int_add (X (Pos c)) (sub_offset (Rotate c)).1)
             (int_add (Y (Pos c)) (sub_offset (Rotate c)).2).

(** The candidate of a request: the piece with its main position moved by
    [(ax, ay)] and its rotation turned to [(Rotate + rotate + 4) % 4], the
    two colors as they are. *)
Definition candidate (cur : PuyoPair) (ax ay rotate : Z) : PuyoPair :=
  mkPuyoPair (Main cur) (Sub cur)
             (mkPosition (int_add (X (Pos cur)) ax) (int_add (Y (Pos cur)) ay))
             (int_rem (int_add (int_add (Rotate cur) rotate) 4) 4).

(** A candidate validates when its main cell and its sub cell are both
    valid positions of the field. *)
Definition fits (f : Field) (c : PuyoPair) : bool :=
  IsValidPosition f (X (Pos c)) (Y (Pos c))
  && IsValidPosition f (X (sub_cell c)) (Y (sub_cell c)).

(** Applying a candidate: it becomes the current piece, the lock-delay
    counter is set to 0 when [reset] says so, and every other field of the
    game is as before. *)
Definition with_piece (g : Game) (c : PuyoPair) (reset : bool) : Game :=
  mkGame (GField g) (Some c) (Next g) (Score g) (Level g) (GameOver g) (Paused g)
         (rand g) (ChainCount g) (TotalChains g) (LinesCleared g) (DropSpeed g)
         (GHighScore g) (State g) (CurrentChainNum g)
         (if reset then 0 else GroundFrames g)
         (MaxGroundFrames g) (ColorCount g).

(** The kick offsets (-1,0), (+1,0), (0,-1), in this order, on top of
    [(dx, dy)]. *)
Definition kick_candidates (dx dy : Z) : list (Z * Z) :=
  [(int_sub dx 1, dy); (int_add dx 1, dy); (dx, int_sub dy 1)].

(** The base candidate is tried first and applied when it validates; only
    a rotating request whose base candidate failed goes through the kicks,
    and the first kicked candidate that validates is the one applied;
    otherwise the answer is [false] and the game is untouched. *)
Definition Move_by_rule (g : Game) (dx dy rotate : Z) : bool * Game :=
  match Current g with
  | None => (false, g)
  | Some cur =>
    let base := candidate cur dx dy rotate in
    if fits (GField g) base then
      (true, with_piece g base (negb (bool_decide (dx = 0 /\ rotate = 0))))
    else if bool_decide (rotate = 0) then (false, g)
    else
      match find (fits (GField g))
                 ((fun k => candidate cur k.1 k.2 rotate) <$> kick_candidates dx dy) with
      | Some c => (true, with_piece g c true)
      | None => (false, g)
      end
  end.

(** ** Sample states *)

Definition empty_game (cur : option PuyoPair) (gf : Z) (over : bool) (st : GameState) : Game :=
  mkGame NewField cur None 0 1 over false (mkRand (fun _ => 0) 0) 0 0 0
         (500 * millisecond) None st 0 gf 32 4.


(** A piece in mid-air over an empty field, five grounded frames counted. *)
Definition airborne_game : Game :=
  empty_game (Some (mkPuyoPair (mkPuyo Red) (mkPuyo Blue) (mkPosition 3 5) 0)) 5
             false StateNormal.



(** [n] pure-downward moves in a row. *)
Fixpoint descend (n : nat) (g : Game) : Game :=
  match n with
  | O => g
  | S n' => descend n' (Move g 0 1 0).2
  end.

(** A Dropping state with nothing left to clear and chain depth 2. *)
Definition settling_game : Game :=
  mkGame NewField None
         (Some (mkPuyoPair (mkPuyo Red) (mkPuyo Blue) (mkPosition 3 0) 0))
         0 1 false false (mkRand (fun _ => 0) 0) 2 0 0
         (500 * millisecond) None StateDropping 2 0 32 4.

(** ** Board geometry *)

Definition in_field (p : Position) : Prop :=
  0 <= X p < FieldWidth /\ 0 <= Y p < FieldHeight.

Definition color_at (gr : Grid) (p : Position) : Color := cell gr (X p) (Y p).

(** A column is settled when no occupied cell has an empty cell right
    below it: this is what "already compacted" means. *)
Definition settled_column (gr : Grid) (x : Z) : Prop :=
  forall y, 0 <= y < FieldHeight - 1 ->
            cell gr x y <> Empty -> cell gr x (y + 1) <> Empty.

Definition settled (gr : Grid) : Prop :=
  forall x, 0 <= x < FieldWidth -> settled_column gr x.

(** Three puyos with gaps in column 2, as in [TestApplyGravity]. *)
Definition gappy_game : Game :=
  set_Field
    (PlacePuyo (PlacePuyo (PlacePuyo NewField 2 5 Red) 2 8 Blue) 2 10 Green)
    airborne_game.

(** ** Invariants of the loops *)

(** [Move] writes two fields at most: [Current] and [GroundFrames]. *)
Definition same_but_piece (g g' : Game) : Prop :=
  g' = set_GroundFrames (GroundFrames g') (set_Current (Current g') g).

(** Inner loop of [applyGravity] on column [x], rows above [y] still to
    come: below [writeY] everything is occupied, from [y + 1] to [writeY]
    everything is empty, and the other columns are as in [gr0]. *)
Definition packing (x : Z) (gr0 : Grid) (y : Z) (st : Grid * Z) : Prop :=
  grid_wf st.1
  /\ y <= st.2 <= FieldHeight - 1
  /\ (forall r, st.2 < r <= FieldHeight - 1 -> cell st.1 x r <> Empty)
  /\ (forall r, y < r <= st.2 -> cell st.1 x r = Empty)
  /\ (forall x' y', 0 <= x' -> 0 <= y' -> x' <> x -> cell st.1 x' y' = cell gr0 x' y').

(** On a settled column the same loop never writes: [writeY] either walks
    in step with [y] or the scan has reached the empty top part. *)
Definition idle (x : Z) (gr : Grid) (y : Z) (st : Grid * Z) : Prop :=
  st.1 = gr /\ (st.2 = y \/ (y < FieldHeight - 1 /\ cell gr x (y + 1) = Empty)).

(** The level is the one the lines cleared so far give. *)
Definition level_tracks_lines (g : Game) : Prop :=
  0 <= LinesCleared g /\ Level g = LinesCleared g / 10 + 1.

(** ** Connected groups *)

(** 4-neighbor adjacency. *)
Definition adjacent (p q : Position) : Prop :=
  (Y q = Y p /\ (X q = X p + 1 \/ X q = X p - 1))
  \/ (X q = X p /\ (Y q = Y p + 1 \/ Y q = Y p - 1)).

(** A cell of the field holding color [c]. *)
Definition colored (gr : Grid) (c : Color) (p : Position) : Prop :=
  in_field p /\ color_at gr p = c.

(** [q] can be reached from [p] through adjacent cells of color [c]. *)
Inductive linked (gr : Grid) (c : Color) : Position -> Position -> Prop :=
| linked_here p : colored gr c p -> linked gr c p p
| linked_next p q r :
    linked gr c p q -> adjacent q r -> colored gr c r -> linked gr c p r.

(** [S] is the connected group of the cell [p]: the cells linked to [p]
    through its own color. *)
Definition group_of (gr : Grid) (p : Position) (S : gset Position) : Prop :=
  forall q, q ∈ S <-> linked gr (color_at gr p) p q.

(** The group as [clearPuyos] and [hasClearablePuyos] compute it. *)
Definition flood (gr : Grid) (p : Position) : gset Position :=
  findConnectedGroup fill_depth gr (X p) (Y p) (color_at gr p) ∅.

Definition all_cells : gset Position := list_to_set scan_order.

(** The group of [q] reaches the clear threshold. *)
Definition clearable (gr : Grid) (q : Position) : Prop :=
  MinChain <= Z.of_nat (size (flood gr q)).

Global Instance clearable_dec gr q : Decision (clearable gr q).
Proof. unfold clearable. apply _. Defined.

(** Invariant of the scan in [clearPuyos], [gr0] being the grid at entry
    and [done] the cells scanned so far: the visited cells are occupied
    cells of [gr0], closed under its groups, they include every occupied
    cell scanned, the grid differs from [gr0] exactly by the visited cells
    of clearable groups, now empty, and the flag tells whether there is one. *)
Definition scan_inv (gr0 : Grid) (done : list Position)
    (st : Grid * gset Position * bool) : Prop :=
  grid_wf st.1.1
  /\ (forall q, q ∈ st.1.2 -> in_field q /\ color_at gr0 q <> Empty)
  /\ (forall q r, q ∈ st.1.2 -> linked gr0 (color_at gr0 q) q r -> r ∈ st.1.2)
  /\ (forall q, q ∈ done -> in_field q -> color_at gr0 q <> Empty -> q ∈ st.1.2)
  /\ (forall q, in_field q ->
        color_at st.1.1 q =
          if decide (q ∈ st.1.2 /\ clearable gr0 q) then Empty else color_at gr0 q)
  /\ (st.2 = true <-> exists q, q ∈ st.1.2 /\ clearable gr0 q).

(** Four Reds in a row and three Blues in a column, on the floor. *)
Definition mixed_game : Game :=
  set_Field
    (PlacePuyo (PlacePuyo (PlacePuyo (PlacePuyo (PlacePuyo (PlacePuyo (PlacePuyo
       NewField 0 11 Red) 1 11 Red) 2 11 Red) 3 11 Red) 5 11 Blue) 5 10 Blue) 5 9 Blue)
    (set_State StateClearing airborne_game).

(** Some group of the grid reaches the clear threshold, so that a clearing
    pass has a group to remove. *)
Definition has_large_group (gr : Grid) : Prop :=
  exists (p : Position) (S : gset Position),
    in_field p /\ color_at gr p <> Empty /\ group_of gr p S /\ (4 <= size S)%nat.
(** ** Go [int] facts *)

Lemma wrap_id z : is_int z -> wrap z = z.
Proof.
  unfold is_int, int_min, int_max, wrap. intros H.
  rewrite Z.mod_small; lia.
Qed.

Lemma wrap_is_int z : is_int (wrap z).
Proof.
  unfold is_int, int_min, int_max, wrap.
  pose proof (Z.mod_pos_bound (z + 2 ^ 63) (2 ^ 64) ltac:(lia)). lia.
Qed.

Lemma wrap_eqm a b : (a - b) mod 2 ^ 64 = 0 -> wrap a = wrap b.
Proof.
  unfold wrap. intros H. f_equal.
  apply Z.mod_divide in H; [|lia]. destruct H as [k Hk].
  replace (a + 2 ^ 63) with (b + 2 ^ 63 + k * 2 ^ 64) by lia.
  apply Z.mod_add. lia.
Qed.

Lemma wrap_diff z : exists k, wrap z = z + k * 2 ^ 64.
Proof.
  unfold wrap. exists (- ((z + 2 ^ 63) / 2 ^ 64)).
  pose proof (Z.div_mod (z + 2 ^ 63) (2 ^ 64) ltac:(lia)). lia.
Qed.

Lemma wrap_add_l a b : wrap (wrap a + b) = wrap (a + b).
Proof.
  destruct (wrap_diff a) as [k ->]. apply wrap_eqm.
  replace (a + k * 2 ^ 64 + b - (a + b)) with (k * 2 ^ 64) by lia.
  apply Z.mod_mul. lia.
Qed.

Lemma wrap_add_r a b : wrap (a + wrap b) = wrap (a + b).
Proof. rewrite (Z.add_comm a), wrap_add_l. f_equal. lia. Qed.

Lemma wrap_mul_l a b : wrap (wrap a * b) = wrap (a * b).
Proof.
  destruct (wrap_diff a) as [k ->]. apply wrap_eqm.
  replace ((a + k * 2 ^ 64) * b - a * b) with (k * b * 2 ^ 64) by lia.
  apply Z.mod_mul. lia.
Qed.

Lemma wrap_mul_r a b : wrap (a * wrap b) = wrap (a * b).
Proof. rewrite (Z.mul_comm a), wrap_mul_l. f_equal. lia. Qed.

(** ** Board queries *)

(** C3, as the code has it: above the field ([y < 0]) a cell is reported
    valid exactly when its column lies in [0, FieldWidth), whatever the grid
    holds. *)
Theorem IsValidPosition_above (f : Field) (x y : Z) :
  y < 0 ->
  IsValidPosition f x y = bool_decide (0 <= x < FieldWidth).
Proof.
  intros Hy. unfold IsValidPosition, FieldWidth, FieldHeight.
  destruct (x <? 0) eqn:E1; destruct (x >=? 6) eqn:E2;
    destruct (y >=? 12) eqn:E3; destruct (y <? 0) eqn:E4; simpl;
    repeat case_bool_decide; try reflexivity; lia.
Qed.

Lemma IsValidPosition_above_witness :
  IsValidPosition NewField 2 (-3) = bool_decide (0 <= 2 < FieldWidth).
Proof. apply (IsValidPosition_above NewField 2 (-3)). lia. Defined.

(** C3 as stated fails: column -1 of the spawn buffer is not valid, on the
    empty field or any other. *)
Lemma IsValidPosition_above_any_column_fails :
  -1 < 0 /\ IsValidPosition NewField (-1) (-1) = false
  /\ ~ (forall (f : Field) (x y : Z), y < 0 -> IsValidPosition f x y = true).
Proof.
  split; [lia|]. split; [reflexivity|].
  intros H. specialize (H NewField (-1) (-1) ltac:(lia)). discriminate H.
Qed.

(** ** Movement *)

Lemma sub_cell_GetSubPosition c :
  is_int (X (Pos c)) -> is_int (Y (Pos c)) -> sub_cell c = GetSubPosition c.
Proof.
  intros Hx Hy. unfold sub_cell, sub_offset, GetSubPosition, int_add, int_sub.
  destruct (Z.eqb_spec (Rotate c) 0) as [E0|E0];
    destruct (Z.eqb_spec (Rotate c) 1) as [E1|E1];
    destruct (Z.eqb_spec (Rotate c) 2) as [E2|E2];
    destruct (Z.eqb_spec (Rotate c) 3) as [E3|E3];
    try lia; cbn [fst snd];
    rewrite ?Z.add_0_r, ?(wrap_id _ Hx), ?(wrap_id _ Hy); reflexivity.
Qed.

Lemma candidate_is_int cur ax ay rotate :
  is_int (X (Pos (candidate cur ax ay rotate)))
  /\ is_int (Y (Pos (candidate cur ax ay rotate))).
Proof. split; apply wrap_is_int. Qed.

Lemma CanMove_fits g cur ax ay rotate :
  Current g = Some cur ->
  CanMove g ax ay rotate = fits (GField g) (candidate cur ax ay rotate).
Proof.
  intros Hc. unfold CanMove, fits. rewrite Hc.
  destruct (candidate_is_int cur ax ay rotate) as [Hx Hy].
  rewrite (sub_cell_GetSubPosition _ Hx Hy).
  cbn [candidate Pos X Y].
  destruct (IsValidPosition (GField g) _ _); reflexivity.
Qed.

Lemma shift_current_candidate g cur ax ay rotate :
  Current g = Some cur ->
  shift_current g ax ay rotate = with_piece g (candidate cur ax ay rotate) false
  /\ set_GroundFrames 0 (shift_current g ax ay rotate)
     = with_piece g (candidate cur ax ay rotate) true.
Proof. intros Hc. unfold shift_current. rewrite Hc. split; reflexivity. Qed.

Lemma Move_false_unchanged g dx dy rotate :
  (Move g dx dy rotate).1 = false -> (Move g dx dy rotate).2 = g.
Proof.
  unfold Move.
  repeat match goal with
         | |- context [if ?b then _ else _] => destruct b
         end; cbn; intros H; try discriminate H; reflexivity.
Qed.

(** C4: a request that [Move] answers with [false] leaves the whole game
    value as it was, so in particular the piece position, its rotation,
    [GroundFrames] and every cell of the grid. *)
Theorem Move_false_no_mutation (g : Game) (dx dy rotate : Z) :
  (Move g dx dy rotate).1 = false ->
  (Move g dx dy rotate).2 = g.
Proof. apply Move_false_unchanged. Qed.

Lemma Move_false_no_mutation_witness :
  let g := empty_game (Some (mkPuyoPair (mkPuyo Red) (mkPuyo Blue) (mkPosition 0 5) 0)) 7
             false StateNormal in
  (Move g (-1) 0 0).2 = g.
Proof.
  intros g. apply (Move_false_no_mutation g (-1) 0 0). vm_compute. reflexivity.
Defined.

(** C5: [Move] is the rule of the design text.  The base candidate (main
    position moved by (dx,dy), rotation turned by [rotate]) is tried first
    and becomes the piece when both its cells validate; kicks are tried only
    for a rotating request whose base candidate failed, with the offsets
    (-1,0), (+1,0), (0,-1) on top of (dx,dy) in that order, and the first
    kicked candidate whose two cells validate becomes the piece; otherwise
    the answer is [false] and the state is untouched. *)
Theorem Move_follows_kick_rule (g : Game) (dx dy rotate : Z) :
  Move g dx dy rotate = Move_by_rule g dx dy rotate.
Proof.
  unfold Move, Move_by_rule, kick_candidates.
  destruct (Current g) as [cur|] eqn:Hc.
  - rewrite !(CanMove_fits g cur) by exact Hc.
    destruct (shift_current_candidate g cur dx dy rotate Hc) as [-> ->].
    destruct (shift_current_candidate g cur (int_sub dx 1) dy rotate Hc) as [_ ->].
    destruct (shift_current_candidate g cur (int_add dx 1) dy rotate Hc) as [_ ->].
    destruct (shift_current_candidate g cur dx (int_sub dy 1) rotate Hc) as [_ ->].
    destruct (fits (GField g) (candidate cur dx dy rotate)).
    + destruct (Z.eqb_spec dx 0), (Z.eqb_spec rotate 0); cbn [negb orb];
        case_bool_decide; try lia; reflexivity.
    + destruct (Z.eqb_spec rotate 0); cbn [negb]; case_bool_decide; try lia;
        try reflexivity.
      cbn [fmap list_fmap find fst snd].
      destruct (fits (GField g) (candidate cur (int_sub dx 1) dy rotate)); [reflexivity|].
      destruct (fits (GField g) (candidate cur (int_add dx 1) dy rotate)); [reflexivity|].
      destruct (fits (GField g) (candidate cur dx (int_sub dy 1) rotate)); reflexivity.
  - unfold CanMove. rewrite Hc.
    destruct (negb (rotate =? 0)); reflexivity.
Qed.

(** A wall kick at work: at the left wall with the sub cell on top, a turn
    to the left would put the sub cell in column -1; the kick to the left
    fails as well, the kick to the right validates, and the piece ends in
    column 1 with the sub cell in column 0. *)
Example Move_wall_kick_example :
  let g := empty_game (Some (mkPuyoPair (mkPuyo Red) (mkPuyo Blue) (mkPosition 0 5) 0)) 7
             false StateNormal in
  CanMove g 0 0 (-1) = false
  /\ CanMove g (-1) 0 (-1) = false
  /\ Move g 0 0 (-1)
     = (true, with_piece g (mkPuyoPair (mkPuyo Red) (mkPuyo Blue) (mkPosition 1 5) 3) true).
Proof. vm_compute. repeat split; reflexivity. Qed.


Lemma same_but_piece_refl g : same_but_piece g g.
Proof. destruct g; reflexivity. Qed.

Lemma same_but_piece_trans g1 g2 g3 :
  same_but_piece g1 g2 -> same_but_piece g2 g3 -> same_but_piece g1 g3.
Proof.
  unfold same_but_piece. intros H12 H23. rewrite H23 at 1. rewrite H12 at 1.
  reflexivity.
Qed.

Lemma shift_current_frame g ax ay rotate : same_but_piece g (shift_current g ax ay rotate).
Proof.
  unfold shift_current. destruct (Current g) eqn:E; [reflexivity|].
  apply same_but_piece_refl.
Qed.

Lemma set_GroundFrames_frame g g' v :
  same_but_piece g g' -> same_but_piece g (set_GroundFrames v g').
Proof. unfold same_but_piece. intros H. rewrite H at 1. reflexivity. Qed.

Lemma Move_frame g dx dy rotate : same_but_piece g (Move g dx dy rotate).2.
Proof.
  unfold Move.
  repeat match goal with
         | |- context [if ?b then _ else _] => destruct b
         end; cbn [snd];
    auto using same_but_piece_refl, shift_current_frame, set_GroundFrames_frame.
Qed.

Lemma Drop_Move g :
  Drop g = ((Move g 0 1 0).1,
            if (Move g 0 1 0).1 then set_GroundFrames 0 (Move g 0 1 0).2
            else (Move g 0 1 0).2).
Proof. unfold Drop. destruct (Move g 0 1 0) as [[] g1]; reflexivity. Qed.

Lemma Drop_frame g : same_but_piece g (Drop g).2.
Proof.
  rewrite Drop_Move. cbn [snd].
  destruct (Move g 0 1 0).1; auto using Move_frame, set_GroundFrames_frame.
Qed.

Lemma shift_current_GroundFrames g ax ay rotate :
  GroundFrames (shift_current g ax ay rotate) = GroundFrames g.
Proof. unfold shift_current. destruct (Current g); reflexivity. Qed.

(** C2, as the code has it: an accepted [Move] leaves [GroundFrames] alone
    exactly when [dx = 0] and [rotate = 0] and sets it to 0 otherwise; the
    same downward step issued through [Drop] is accepted too, and there the
    counter is reset to 0. *)
Theorem accepted_move_GroundFrames (g : Game) (dx dy rotate : Z) :
  (Move g dx dy rotate).1 = true ->
  GroundFrames (Move g dx dy rotate).2
    = (if bool_decide (dx = 0 /\ rotate = 0) then GroundFrames g else 0)
  /\ (dx = 0 -> dy = 1 -> rotate = 0 ->
      (Drop g).1 = true /\ GroundFrames (Drop g).2 = 0).
Proof.
  intros Hok. split.
  - revert Hok. unfold Move.
    destruct (CanMove g dx dy rotate).
    + intros _. destruct (Z.eqb_spec dx 0), (Z.eqb_spec rotate 0); cbn;
        case_bool_decide; rewrite ?shift_current_GroundFrames; try reflexivity; lia.
    + destruct (Z.eqb_spec rotate 0); cbn [negb]; [discriminate|].
      rewrite bool_decide_eq_false_2 by lia.
      repeat match goal with
             | |- context [if ?b then _ else _] => destruct b
             end; cbn; try discriminate; reflexivity.
  - intros -> -> ->. rewrite Drop_Move, Hok. cbn. split; reflexivity.
Qed.

Lemma accepted_move_GroundFrames_witness :
  GroundFrames (Move airborne_game 0 1 0).2 = GroundFrames airborne_game
  /\ GroundFrames (Drop airborne_game).2 = 0.
Proof.
  destruct (accepted_move_GroundFrames airborne_game 0 1 0) as [H1 H2].
  - vm_compute. reflexivity.
  - split; [exact H1 | apply H2; reflexivity].
Defined.

(** C2 as stated fails on [Drop]: with five frames on the counter, an
    accepted drop leaves 0, not 5. *)
Lemma Drop_resets_counter_example :
  (Move airborne_game 0 1 0).1 = true
  /\ (Drop airborne_game).1 = true
  /\ GroundFrames airborne_game = 5
  /\ GroundFrames (Drop airborne_game).2 = 0.
Proof. vm_compute. repeat split; reflexivity. Qed.

(** ** Hard drop *)

Lemma CanMove_down_bound g :
  CanMove g 0 1 0 = true ->
  exists cur, Current g = Some cur /\ int_add (Y (Pos cur)) 1 < FieldHeight.
Proof.
  unfold CanMove. destruct (Current g) as [cur|]; [|discriminate].
  intros H. exists cur. split; [reflexivity|].
  unfold IsValidPosition in H.
  destruct (int_add (Y (Pos cur)) 1 >=? FieldHeight) eqn:E.
  - rewrite !orb_true_r in H. discriminate H.
  - lia.
Qed.

Lemma Move_down_cases g :
  (CanMove g 0 1 0 = true /\ Move g 0 1 0 = (true, shift_current g 0 1 0))
  \/ (CanMove g 0 1 0 = false /\ Move g 0 1 0 = (false, g)).
Proof. unfold Move. destruct (CanMove g 0 1 0); cbn; auto. Qed.

Lemma hard_drop_fuel_step g :
  CanMove g 0 1 0 = true ->
  (hard_drop_fuel (shift_current g 0 1 0) < hard_drop_fuel g)%nat.
Proof.
  intros H. destruct (CanMove_down_bound g H) as (cur & Hc & Hlt).
  unfold hard_drop_fuel, shift_current. rewrite Hc. cbn.
  pose proof (wrap_is_int (Y (Pos cur) + 1)) as Hi.
  unfold int_add in *. set (y1 := wrap (Y (Pos cur) + 1)) in *.
  rewrite (wrap_id (y1 + 1)).
  - unfold FieldHeight in *. lia.
  - unfold is_int, int_min, int_max, FieldHeight in *. lia.
Qed.

Lemma CanMove_down_fuel g : hard_drop_fuel g = O -> CanMove g 0 1 0 = false.
Proof.
  intros H. destruct (CanMove g 0 1 0) eqn:E; [|reflexivity].
  destruct (CanMove_down_bound g E) as (cur & Hc & Hlt).
  unfold hard_drop_fuel in H. rewrite Hc in H. lia.
Qed.

(** The loop of [HardDrop] leaves by its test, never by lack of fuel, and its
    result is some number of accepted downward moves. *)
Lemma drop_loop_stops n g :
  (hard_drop_fuel g <= n)%nat ->
  exists k,
    drop_loop n g = descend k g
    /\ (forall j, (j < k)%nat -> (Move (descend j g) 0 1 0).1 = true)
    /\ (Move (descend k g) 0 1 0).1 = false.
Proof.
  revert g. induction n as [|n IH]; intros g Hfuel.
  - exists O. cbn. split; [reflexivity|]. split; [lia|].
    destruct (Move_down_cases g) as [[Hc _]|[_ ->]]; [|reflexivity].
    rewrite CanMove_down_fuel in Hc by lia. discriminate.
  - cbn [drop_loop].
    destruct (Move_down_cases g) as [[Hc Hm]|[Hc Hm]]; rewrite Hm.
    + pose proof (hard_drop_fuel_step g Hc) as Hlt.
      destruct (IH (shift_current g 0 1 0)) as (k & Hk & Hacc & Hstop); [lia|].
      exists (S k). cbn [descend]. rewrite Hm. cbn [snd].
      split; [exact Hk|]. split; [|exact Hstop].
      intros [|j] Hj; cbn [descend]; rewrite ?Hm; cbn [fst snd]; [reflexivity|].
      apply Hacc. lia.
    + exists O. cbn [descend]. rewrite Hm. split; [reflexivity|]. split; [lia|reflexivity].
Qed.

Lemma descend_frame k g : same_but_piece g (descend k g).
Proof.
  revert g. induction k as [|k IH]; intros g; cbn.
  - apply same_but_piece_refl.
  - eapply same_but_piece_trans; [apply Move_frame | apply IH].
Qed.

Lemma same_but_piece_MaxGroundFrames g g' :
  same_but_piece g g' -> MaxGroundFrames g' = MaxGroundFrames g.
Proof. intros ->. reflexivity. Qed.

Lemma Move_ignores_GroundFrames g v dx dy rotate :
  (Move (set_GroundFrames v g) dx dy rotate).1 = (Move g dx dy rotate).1.
Proof.
  unfold Move, CanMove. cbn [Current GField set_GroundFrames].
  repeat match goal with
         | |- context [if ?b then _ else _] => destruct b eqn:?
         | |- context [match ?b with Some _ => _ | None => _ end] => destruct b eqn:?
         end; reflexivity.
Qed.

(** C8: [HardDrop] is a run of accepted pure-downward moves that ends at the
    first refused one, followed by [GroundFrames = MaxGroundFrames]; so
    [ShouldLock] holds at once, the piece cannot go further down, and with
    the threshold 32 of [NewGameWithColors] the counter reads exactly 32. *)
Theorem HardDrop_locks_immediately (g : Game) :
  (exists k,
      HardDrop g = set_GroundFrames (MaxGroundFrames g) (descend k g)
      /\ (forall j, (j < k)%nat -> (Move (descend j g) 0 1 0).1 = true)
      /\ (Move (descend k g) 0 1 0).1 = false)
  /\ GroundFrames (HardDrop g) = MaxGroundFrames g
  /\ MaxGroundFrames (HardDrop g) = MaxGroundFrames g
  /\ ShouldLock (HardDrop g) = true
  /\ (Move (HardDrop g) 0 1 0).1 = false
  /\ (MaxGroundFrames g = 32 -> GroundFrames (HardDrop g) = 32).
Proof.
  destruct (drop_loop_stops (hard_drop_fuel g) g (le_n _)) as (k & Hk & Hacc & Hstop).
  assert (HM : MaxGroundFrames (descend k g) = MaxGroundFrames g)
    by apply same_but_piece_MaxGroundFrames, descend_frame.
  assert (HD : HardDrop g = set_GroundFrames (MaxGroundFrames g) (descend k g)).
  { unfold HardDrop. rewrite Hk, HM. reflexivity. }
  split; [exists k; auto|].
  rewrite HD. cbn [GroundFrames MaxGroundFrames set_GroundFrames].
  rewrite Move_ignores_GroundFrames.
  repeat split; auto.
  - unfold ShouldLock. cbn. rewrite HM. lia.
Qed.

Lemma HardDrop_locks_immediately_witness :
  GroundFrames (HardDrop airborne_game) = 32
  /\ ShouldLock (HardDrop airborne_game) = true.
Proof.
  destruct (HardDrop_locks_immediately airborne_game)
    as (_ & _ & _ & Hlock & _ & H32).
  split; [apply H32; reflexivity | exact Hlock].
Defined.

Lemma NewGameWithColors_threshold c r : MaxGroundFrames (NewGameWithColors c r) = 32.
Proof.
  unfold NewGameWithColors, SpawnNewPair, generatePuyoPair. cbn.
  repeat match goal with
         | |- context [if ?b then _ else _] => destruct b
         end; reflexivity.
Qed.

(** ** What the operations leave alone *)

Lemma same_but_piece_fields g g' :
  same_but_piece g g' ->
  GField g' = GField g /\ Score g' = Score g /\ State g' = State g
  /\ GameOver g' = GameOver g /\ TotalChains g' = TotalChains g
  /\ Level g' = Level g /\ LinesCleared g' = LinesCleared g.
Proof. intros ->. repeat split; reflexivity. Qed.

Lemma HardDrop_frame g : same_but_piece g (HardDrop g).
Proof.
  destruct (drop_loop_stops (hard_drop_fuel g) g (le_n _)) as (k & Hk & _).
  unfold HardDrop. rewrite Hk.
  apply set_GroundFrames_frame, descend_frame.
Qed.

Lemma SpawnNewPair_keeps g :
  GField (SpawnNewPair g) = GField g
  /\ Score (SpawnNewPair g) = Score g
  /\ Level (SpawnNewPair g) = Level g
  /\ LinesCleared (SpawnNewPair g) = LinesCleared g
  /\ TotalChains (SpawnNewPair g) = TotalChains g
  /\ State (SpawnNewPair g) = State g
  /\ (GameOver g = true -> GameOver (SpawnNewPair g) = true).
Proof.
  unfold SpawnNewPair, generatePuyoPair. cbn.
  destruct (Next g) as [nx|]; cbn;
    repeat match goal with
           | |- context [if ?b then _ else _] => destruct b
           end; cbn; repeat split; auto.
Qed.

Lemma LockPair_keeps g :
  Score (LockPair g) = Score g /\ TotalChains (LockPair g) = TotalChains g
  /\ GameOver (LockPair g) = GameOver g.
Proof. unfold LockPair. destruct (Current g); cbn; repeat split; reflexivity. Qed.

Lemma TogglePause_keeps g :
  TotalChains (TogglePause g) = TotalChains g /\ GameOver (TogglePause g) = GameOver g.
Proof.
  unfold TogglePause.
  destruct (negb (bool_decide (State g = StateNormal)) || GameOver g);
    split; reflexivity.
Qed.

Lemma clearPuyos_unfold g :
  clearPuyos g = ((clear_scan (grid_of g)).2,
                  set_Field (mkField (clear_scan (grid_of g)).1.1) g).
Proof. unfold clearPuyos. destruct (clear_scan (grid_of g)) as [[gr v] c]. reflexivity. Qed.

Lemma clearPuyos_keeps g :
  TotalChains (clearPuyos g).2 = TotalChains g
  /\ GameOver (clearPuyos g).2 = GameOver g
  /\ Score (clearPuyos g).2 = Score g
  /\ State (clearPuyos g).2 = State g.
Proof.
  unfold clearPuyos. destruct (clear_scan (grid_of g)) as [[gr v] c].
  repeat split; reflexivity.
Qed.

Lemma calculateScore_keeps speed g :
  TotalChains (calculateScore speed g) = TotalChains g
  /\ GameOver (calculateScore speed g) = GameOver g
  /\ GField (calculateScore speed g) = GField g
  /\ State (calculateScore speed g) = State g.
Proof.
  unfold calculateScore.
  repeat match goal with
         | |- context [if ?b then _ else _] => destruct b
         end; cbn; repeat split; reflexivity.
Qed.





(** ** Scoring *)

Lemma doubling_pow n : Nat.iter n (fun b => int_mul b 2) 1 = wrap (2 ^ Z.of_nat n).
Proof.
  induction n as [|n IH].
  - reflexivity.
  - rewrite Nat.iter_succ, IH. unfold int_mul. rewrite wrap_mul_l.
    f_equal. rewrite Nat2Z.inj_succ, Z.pow_succ_r by lia. lia.
Qed.

Lemma chainBonus_pow d : 0 < d -> chainBonus d = wrap (2 ^ (d - 1)).
Proof.
  intros Hd. unfold chainBonus. rewrite doubling_pow, Z2Nat.id by lia. reflexivity.
Qed.

Lemma score_delta_wrap s d :
  0 < d ->
  int_add s (int_mul (int_mul 100 (chainBonus d)) d) = wrap (s + 100 * d * 2 ^ (d - 1)).
Proof.
  intros Hd. rewrite chainBonus_pow by lia. unfold int_add, int_mul.
  rewrite wrap_mul_r, wrap_mul_l, wrap_add_r. f_equal. lia.
Qed.

Lemma calculateScore_totals speed g :
  0 < ChainCount g ->
  Score (calculateScore speed g)
    = wrap (Score g + 100 * ChainCount g * 2 ^ (ChainCount g - 1))
  /\ LinesCleared (calculateScore speed g) = wrap (LinesCleared g + ChainCount g)
  /\ Level (calculateScore speed g)
     = Z.max (Level g) (wrap (wrap (Z.quot (wrap (LinesCleared g + ChainCount g)) 10) + 1)).
Proof.
  intros Hd. unfold calculateScore.
  destruct (Z.gtb_spec (ChainCount g) 0) as [_|]; [|lia].
  cbn [LinesCleared ChainCount Level set_Score set_LinesCleared].
  rewrite <- score_delta_wrap by lia.
  unfold int_div. fold (int_add (LinesCleared g) (ChainCount g)).
  set (nl := int_add (wrap (_ ÷ 10)) 1).
  change (wrap (wrap (int_add (LinesCleared g) (ChainCount g) ÷ 10) + 1)) with nl.
  destruct (Z.gtb_spec nl (Level g)).
  - cbn [Level set_Level].
    destruct (nl <? 20); cbn; repeat split; lia.
  - cbn. repeat split; lia.
Qed.

(** C7: when the Dropping step finds nothing left to clear and the chain
    depth [d] is positive, the score grows by [100 * d * 2^(d-1)], the
    lines total by [d], and the level becomes [floor(total/10) + 1].  The
    sums are taken to stay inside Go's [int], and the level not to be ahead
    of the lines cleared so far, as in every game started by
    [NewGameWithColors]. *)
Theorem chain_completion_scoring (speed : Z -> Z) (g : Game) (d : Z) :
  State g = StateDropping ->
  hasClearablePuyos (applyGravity g) = false ->
  ChainCount g = d ->
  0 < d ->
  is_int (Score g + 100 * d * 2 ^ (d - 1)) ->
  0 <= LinesCleared g ->
  is_int (LinesCleared g + d) ->
  Level g <= LinesCleared g / 10 + 1 ->
  let g' := (ProcessChainStep speed g).2 in
  Score g' = Score g + 100 * d * 2 ^ (d - 1)
  /\ LinesCleared g' = LinesCleared g + d
  /\ Level g' = LinesCleared g' / 10 + 1.
Proof.
  intros Hst Hnone Hd Hpos Hscore Hl0 Hlines Hlevel.
  unfold ProcessChainStep. rewrite Hst, Hnone. cbn [snd].
  destruct (SpawnNewPair_keeps
              (set_State StateNormal (calculateScore speed (applyGravity g))))
    as (_ & -> & -> & -> & _).
  cbn [Score Level LinesCleared set_State].
  destruct (calculateScore_totals speed (applyGravity g)) as (Hs & Hl & Hv).
  { cbn. lia. }
  cbn [Score Level LinesCleared ChainCount applyGravity set_Field] in Hs, Hl, Hv.
  rewrite Hd in *.
  rewrite Hs, Hl, Hv, !(wrap_id _ Hscore), !(wrap_id _ Hlines).
  split; [reflexivity|]. split; [reflexivity|].
  assert (Hq : (LinesCleared g + d) ÷ 10 = (LinesCleared g + d) / 10)
    by (apply Z.quot_div_nonneg; lia).
  rewrite Hq.
  assert (Hmono : LinesCleared g / 10 <= (LinesCleared g + d) / 10)
    by (apply Z.div_le_mono; lia).
  assert (Hub : 10 * ((LinesCleared g + d) / 10) <= LinesCleared g + d)
    by (apply Z.mul_div_le; lia).
  assert (Hlb : 0 <= (LinesCleared g + d) / 10) by (apply Z.div_pos; lia).
  unfold is_int, int_min, int_max in *.
  rewrite (wrap_id ((LinesCleared g + d) / 10)) by (unfold is_int, int_min, int_max; lia).
  rewrite wrap_id by (unfold is_int, int_min, int_max; lia). lia.
Qed.

Lemma chain_completion_scoring_witness :
  let g' := (ProcessChainStep (fun _ => 0) settling_game).2 in
  Score g' = Score settling_game + 100 * 2 * 2 ^ (2 - 1)
  /\ LinesCleared g' = LinesCleared settling_game + 2
  /\ Level g' = LinesCleared g' / 10 + 1.
Proof.
  apply (chain_completion_scoring (fun _ => 0) settling_game 2);
    try (vm_compute; reflexivity);
    try (vm_compute; split; discriminate);
    vm_compute; discriminate.
Defined.

(** The deltas for depths 1 to 4, as the code computes them. *)
Example score_delta_table :
  (fun d => int_mul (int_mul 100 (chainBonus d)) d) <$> [1; 2; 3; 4]
  = [100; 400; 1200; 3200].
Proof. vm_compute. reflexivity. Qed.

Lemma NewGameWithColors_level c r :
  Level (NewGameWithColors c r) = 1 /\ LinesCleared (NewGameWithColors c r) = 0.
Proof.
  unfold NewGameWithColors, generatePuyoPair, Intn.
  cbv beta iota zeta.
  match goal with
  | |- context [SpawnNewPair ?g] =>
    destruct (SpawnNewPair_keeps g) as (_ & _ & -> & -> & _)
  end.
  split; reflexivity.
Qed.

(** Every game starts with the level in step with the lines cleared, and
    the chain steps keep it so as long as the total stays inside [int]; the
    other operations touch neither field. *)
Lemma level_tracks_lines_new c r : level_tracks_lines (NewGameWithColors c r).
Proof.
  unfold level_tracks_lines.
  destruct (NewGameWithColors_level c r) as [-> ->]. split; [lia | reflexivity].
Qed.

Lemma level_tracks_lines_score speed g :
  level_tracks_lines g ->
  is_int (LinesCleared g + ChainCount g) ->
  level_tracks_lines (calculateScore speed g).
Proof.
  intros [Hl0 Hlv] Hint. unfold level_tracks_lines.
  destruct (Z_lt_le_dec 0 (ChainCount g)) as [Hd|Hd].
  - destruct (calculateScore_totals speed g Hd) as (_ & -> & ->).
    rewrite (wrap_id _ Hint).
    set (t := LinesCleared g + ChainCount g) in *.
    assert (Hq : t ÷ 10 = t / 10) by (apply Z.quot_div_nonneg; lia).
    assert (Hmono : LinesCleared g / 10 <= t / 10) by (apply Z.div_le_mono; lia).
    assert (Hub : 10 * (t / 10) <= t) by (apply Z.mul_div_le; lia).
    assert (Hlb : 0 <= t / 10) by (apply Z.div_pos; lia).
    unfold is_int, int_min, int_max in Hint.
    rewrite Hq.
    rewrite (wrap_id (t / 10)) by (unfold is_int, int_min, int_max; lia).
    rewrite (wrap_id (t / 10 + 1)) by (unfold is_int, int_min, int_max; lia).
    split; lia.
  - unfold calculateScore. destruct (Z.gtb_spec (ChainCount g) 0); [lia|].
    split; assumption.
Qed.

Lemma level_tracks_lines_step speed g :
  level_tracks_lines g ->
  is_int (LinesCleared g + ChainCount g) ->
  level_tracks_lines (ProcessChainStep speed g).2.
Proof.
  intros Hinv Hint. unfold ProcessChainStep. destruct (State g).
  - exact Hinv.
  - rewrite clearPuyos_unfold.
    destruct (clear_scan (grid_of g)).2; exact Hinv.
  - destruct (hasClearablePuyos (applyGravity g)); cbn [snd]; [exact Hinv|].
    unfold level_tracks_lines.
    destruct (SpawnNewPair_keeps
                (set_State StateNormal (calculateScore speed (applyGravity g))))
      as (_ & _ & -> & -> & _).
    apply (level_tracks_lines_score speed (applyGravity g)); assumption.
Qed.

Lemma level_tracks_lines_piece g g' :
  same_but_piece g g' -> level_tracks_lines g -> level_tracks_lines g'.
Proof.
  intros Hf. unfold level_tracks_lines.
  destruct (same_but_piece_fields g g' Hf) as (_ & _ & _ & _ & _ & -> & ->).
  tauto.
Qed.

(** ** Reading and writing cells *)

Lemma cell_set_cell_eq gr x y c :
  grid_wf gr -> in_field (mkPosition x y) ->
  cell (set_cell gr x y c) x y = c.
Proof.
  intros [Hlen Hrows] [Hx Hy]. cbn in Hx, Hy.
  unfold FieldWidth, FieldHeight in *. unfold cell, set_cell.
  destruct (gr !! Z.to_nat y) as [row|] eqn:E.
  - rewrite list_lookup_insert_eq by (apply lookup_lt_Some in E; exact E).
    assert (Hrow : length row = Z.to_nat 6).
    { eapply Forall_lookup_1 in Hrows; [exact Hrows | exact E]. }
    cbv beta iota. rewrite list_lookup_insert_eq by lia. reflexivity.
  - apply lookup_ge_None in E. lia.
Qed.

Lemma cell_set_cell_ne gr x y c x' y' :
  0 <= x -> 0 <= y -> 0 <= x' -> 0 <= y' ->
  (x, y) <> (x', y') ->
  cell (set_cell gr x y c) x' y' = cell gr x' y'.
Proof.
  intros Hx Hy Hx' Hy' Hne. unfold cell, set_cell.
  destruct (gr !! Z.to_nat y) as [row|] eqn:E; [|reflexivity].
  destruct (decide (Z.to_nat y = Z.to_nat y')) as [Ey|Ey].
  - rewrite <- Ey, E.
    rewrite list_lookup_insert_eq by (apply lookup_lt_Some in E; exact E).
    cbv beta iota. rewrite list_lookup_insert_ne; [reflexivity|].
    intros Ex. apply Hne. f_equal; lia.
  - rewrite list_lookup_insert_ne by exact Ey. reflexivity.
Qed.

Lemma set_cell_wf gr x y c : grid_wf gr -> grid_wf (set_cell gr x y c).
Proof.
  intros [Hlen Hrows]. unfold set_cell.
  destruct (gr !! Z.to_nat y) as [row|] eqn:E; [|split; assumption].
  split.
  - rewrite length_insert. exact Hlen.
  - apply Forall_insert; [exact Hrows|].
    rewrite length_insert.
    eapply Forall_lookup_1 in Hrows; [exact Hrows | exact E].
Qed.

Lemma NewField_wf : grid_wf (FGrid NewField).
Proof.
  split; [reflexivity|]. cbn. repeat constructor.
Qed.

(** ** Loop ranges *)

Lemma countDown_succ k :
  countDown (Z.of_nat (S k)) = Z.of_nat k :: countDown (Z.of_nat k).
Proof.
  unfold countDown, countUp. rewrite !Nat2Z.id, seq_S, fmap_app, reverse_app.
  reflexivity.
Qed.

Lemma elem_of_countUp n z : z ∈ countUp n <-> 0 <= z < n.
Proof.
  unfold countUp. rewrite list_elem_of_fmap. split.
  - intros (k & -> & Hk). apply elem_of_seq in Hk. lia.
  - intros Hz. exists (Z.to_nat z). split; [lia|]. apply elem_of_seq. lia.
Qed.

Lemma elem_of_scan_order p : p ∈ scan_order <-> in_field p.
Proof.
  unfold scan_order, in_field. rewrite list_elem_of_In, in_flat_map. split.
  - intros (y & Hy & Hp). apply list_elem_of_In, elem_of_countUp in Hy.
    apply list_elem_of_In, list_elem_of_fmap in Hp. destruct Hp as (x & -> & Hx).
    apply elem_of_countUp in Hx. cbn. lia.
  - intros [Hx Hy]. exists (Y p). split.
    + apply list_elem_of_In, elem_of_countUp. exact Hy.
    + apply list_elem_of_In, list_elem_of_fmap. exists (X p).
      split; [destruct p; reflexivity | apply elem_of_countUp; exact Hx].
Qed.

(** ** Gravity *)

Section GravityColumn.

Variable x : Z.
Hypothesis x_range : 0 <= x < FieldWidth.

Lemma packing_step gr0 y st :
  0 <= y <= FieldHeight - 1 ->
  packing x gr0 y st -> packing x gr0 (y - 1) (gravity_step x st y).
Proof using x_range.
  destruct st as [gr w]. unfold packing, FieldHeight, FieldWidth in *. cbn [fst snd].
  intros Hy (Hwf & Hw & Hfull & Hgap & Hoth).
  unfold gravity_step.
  case_bool_decide as Hc; cbn [negb fst snd].
  - split; [exact Hwf|]. split; [lia|]. split; [exact Hfull|]. split; [|exact Hoth].
    intros r Hr. destruct (decide (r = y)) as [->|]; [exact Hc | apply Hgap; lia].
  - assert (Hw1 : int_sub w 1 = w - 1).
    { apply wrap_id. unfold is_int, int_min, int_max. lia. }
    rewrite Hw1.
    destruct (Z.eqb_spec w y) as [->|Hwy]; cbn [negb fst snd].
    + split; [exact Hwf|]. split; [lia|]. split; [|split; [|exact Hoth]].
      * intros r Hr. destruct (decide (r = y)) as [->|]; [exact Hc | apply Hfull; lia].
      * intros r Hr. lia.
    + assert (Hin : forall r, 0 <= r <= 11 -> in_field (mkPosition x r)).
      { intros r Hr. unfold in_field, FieldWidth, FieldHeight. cbn. lia. }
      split; [auto using set_cell_wf|]. split; [lia|]. split; [|split].
      * intros r Hr. destruct (decide (r = w)) as [->|Hrw].
        -- rewrite cell_set_cell_ne by (try lia; intros [= ?]; lia).
           rewrite cell_set_cell_eq by (auto; apply Hin; lia). exact Hc.
        -- rewrite !cell_set_cell_ne by (try lia; intros [= ?]; lia).
           apply Hfull. lia.
      * intros r Hr. destruct (decide (r = y)) as [->|Hry].
        -- apply cell_set_cell_eq; [auto using set_cell_wf | apply Hin; lia].
        -- rewrite !cell_set_cell_ne by (try lia; intros [= ?]; lia).
           apply Hgap. lia.
      * intros x' y' Hx' Hy' Hne.
        rewrite !cell_set_cell_ne by (try lia; intros [= ?]; lia).
        apply Hoth; assumption.
Qed.

Lemma packing_loop gr0 k st :
  (k <= 12)%nat ->
  packing x gr0 (Z.of_nat k - 1) st ->
  packing x gr0 (-1) (fold_left (gravity_step x) (countDown (Z.of_nat k)) st).
Proof using x_range.
  revert st. induction k as [|k IH]; intros st Hk Hinv.
  - exact Hinv.
  - rewrite countDown_succ. cbn [fold_left]. apply IH; [lia|].
    replace (Z.of_nat (S k) - 1) with (Z.of_nat k) in Hinv by lia.
    apply packing_step; [unfold FieldHeight; lia | exact Hinv].
Qed.

Lemma gravity_column_packs gr :
  grid_wf gr ->
  grid_wf (gravity_column gr x)
  /\ settled_column (gravity_column gr x) x
  /\ (forall x' y', 0 <= x' -> 0 <= y' -> x' <> x ->
                    cell (gravity_column gr x) x' y' = cell gr x' y').
Proof using x_range.
  intros Hwf. unfold gravity_column.
  pose proof (packing_loop gr 12 (gr, int_sub FieldHeight 1) (le_n _)) as H.
  change (Z.of_nat 12) with FieldHeight in H.
  destruct H as (Hwf' & Hw & Hfull & Hgap & Hoth).
  { unfold packing, FieldHeight. cbn [fst snd].
    change (int_sub 12 1) with 11.
    split; [exact Hwf|]. split; [lia|]. split; [intros; lia|].
    split; [intros; lia | reflexivity]. }
  set (st := fold_left _ _ _) in *.
  split; [exact Hwf'|]. split; [|exact Hoth].
  intros y Hy Hocc. unfold FieldHeight in *.
  destruct (decide (y <= st.2)) as [Hle|Hgt].
  - exfalso. apply Hocc, Hgap. lia.
  - apply Hfull. lia.
Qed.

Lemma idle_step gr y st :
  settled_column gr x ->
  0 <= y <= FieldHeight - 1 ->
  idle x gr y st -> idle x gr (y - 1) (gravity_step x st y).
Proof.
  destruct st as [gr' w]. unfold idle, FieldHeight. cbn [fst snd].
  intros Hset Hy [-> Hw]. unfold gravity_step.
  case_bool_decide as Hc; cbn [negb fst snd].
  - split; [reflexivity|]. right. split; [lia|].
    replace (y - 1 + 1) with y by lia. exact Hc.
  - assert (w = y) as ->.
    { destruct Hw as [Hw|[Hlt He]]; [exact Hw|].
      exfalso. apply (Hset y); [unfold FieldHeight; lia | exact Hc | exact He]. }
    rewrite Z.eqb_refl. cbn. split; [reflexivity|]. left.
    apply wrap_id. unfold is_int, int_min, int_max. lia.
Qed.

Lemma idle_loop gr k st :
  settled_column gr x ->
  (k <= 12)%nat ->
  idle x gr (Z.of_nat k - 1) st ->
  idle x gr (-1) (fold_left (gravity_step x) (countDown (Z.of_nat k)) st).
Proof.
  intros Hset. revert st. induction k as [|k IH]; intros st Hk Hinv.
  - exact Hinv.
  - rewrite countDown_succ. cbn [fold_left]. apply IH; [lia|].
    replace (Z.of_nat (S k) - 1) with (Z.of_nat k) in Hinv by lia.
    apply idle_step; [exact Hset | unfold FieldHeight; lia | exact Hinv].
Qed.

Lemma gravity_column_settled gr : settled_column gr x -> gravity_column gr x = gr.
Proof.
  intros Hset. unfold gravity_column.
  pose proof (idle_loop gr 12 (gr, int_sub FieldHeight 1) Hset (le_n _)) as H.
  change (Z.of_nat 12) with FieldHeight in H.
  apply H. split; [reflexivity|]. left. reflexivity.
Qed.

End GravityColumn.

Lemma settled_column_same_cells gr gr' x :
  (forall y, 0 <= y -> cell gr' x y = cell gr x y) ->
  settled_column gr x -> settled_column gr' x.
Proof.
  intros Hsame Hset y Hy. rewrite !Hsame by lia. apply Hset, Hy.
Qed.

Lemma gravity_fold_settles xs gr :
  grid_wf gr ->
  (forall a, a ∈ xs -> 0 <= a < FieldWidth) ->
  grid_wf (fold_left gravity_column xs gr)
  /\ forall x, 0 <= x < FieldWidth ->
               x ∈ xs \/ settled_column gr x ->
               settled_column (fold_left gravity_column xs gr) x.
Proof.
  revert gr. induction xs as [|a xs IH]; intros gr Hwf Hxs.
  - cbn. split; [exact Hwf|]. intros x _ [Hin|Hs]; [inversion Hin | exact Hs].
  - cbn [fold_left].
    assert (Ha : 0 <= a < FieldWidth) by (apply Hxs; left).
    destruct (gravity_column_packs a Ha gr Hwf) as (Hwf1 & Hset1 & Hoth1).
    destruct (IH (gravity_column gr a) Hwf1) as [Hwf2 Hset2].
    { intros b Hb. apply Hxs. right. exact Hb. }
    split; [exact Hwf2|].
    intros x Hx Hcase. apply Hset2; [exact Hx|].
    destruct (decide (x = a)) as [->|Hne]; [right; exact Hset1|].
    destruct Hcase as [Hin|Hs].
    + apply elem_of_cons in Hin. destruct Hin as [->|Hin]; [lia | left; exact Hin].
    + right. eapply settled_column_same_cells; [|exact Hs].
      intros y Hy. apply Hoth1; lia.
Qed.

Lemma gravity_grid_settles gr :
  grid_wf gr -> grid_wf (gravity_grid gr) /\ settled (gravity_grid gr).
Proof.
  intros Hwf. unfold gravity_grid.
  destruct (gravity_fold_settles (countUp FieldWidth) gr Hwf) as [Hwf' Hset].
  { intros a Ha. apply elem_of_countUp, Ha. }
  split; [exact Hwf'|].
  intros x Hx. apply Hset; [exact Hx|]. left. apply elem_of_countUp, Hx.
Qed.

Lemma gravity_fold_fixed xs gr :
  (forall a, a ∈ xs -> 0 <= a < FieldWidth /\ settled_column gr a) ->
  fold_left gravity_column xs gr = gr.
Proof.
  induction xs as [|a xs IH]; intros Hxs; [reflexivity|].
  cbn [fold_left]. rewrite gravity_column_settled by (apply Hxs; left).
  apply IH. intros b Hb. apply Hxs. right. exact Hb.
Qed.

Lemma gravity_grid_fixed gr : settled gr -> gravity_grid gr = gr.
Proof.
  intros Hset. apply gravity_fold_fixed. intros a Ha.
  apply elem_of_countUp in Ha. split; [exact Ha | apply Hset, Ha].
Qed.

Lemma set_Field_same g : set_Field (mkField (grid_of g)) g = g.
Proof. destruct g as [[gr]]; reflexivity. Qed.

(** C9: gravity is idempotent.  After one pass every column is settled;
    on a settled column the pass changes no cell, and on a settled board
    the whole pass changes nothing. *)
Theorem applyGravity_idempotent (g : Game) :
  grid_wf (grid_of g) ->
  applyGravity (applyGravity g) = applyGravity g
  /\ settled (grid_of (applyGravity g))
  /\ (forall x, 0 <= x < FieldWidth -> settled_column (grid_of g) x ->
                gravity_column (grid_of g) x = grid_of g)
  /\ (settled (grid_of g) -> applyGravity g = g).
Proof.
  intros Hwf. destruct (gravity_grid_settles _ Hwf) as [Hwf' Hset].
  split; [|split; [exact Hset|split]].
  - unfold applyGravity at 1 3. unfold grid_of at 1.
    cbn [GField FGrid applyGravity set_Field].
    rewrite (gravity_grid_fixed _ Hset). reflexivity.
  - intros x Hx Hs. apply gravity_column_settled, Hs.
  - intros Hs. unfold applyGravity. rewrite (gravity_grid_fixed _ Hs).
    apply set_Field_same.
Qed.

Lemma applyGravity_idempotent_witness :
  applyGravity (applyGravity gappy_game) = applyGravity gappy_game
  /\ cell (grid_of (applyGravity gappy_game)) 2 9 = Red.
Proof.
  split.
  - apply (applyGravity_idempotent gappy_game).
    split; [reflexivity|]. cbn. repeat constructor.
  - vm_compute. reflexivity.
Defined.

(** ** Flood fill *)

Lemma adjacent_sym p q : adjacent p q -> adjacent q p.
Proof. unfold adjacent. lia. Qed.

Lemma linked_colored_l gr c p q : linked gr c p q -> colored gr c p.
Proof. induction 1; assumption. Qed.

Lemma linked_colored_r gr c p q : linked gr c p q -> colored gr c q.
Proof. destruct 1; assumption. Qed.

Lemma linked_trans gr c p q r : linked gr c p q -> linked gr c q r -> linked gr c p r.
Proof.
  intros Hpq Hqr. induction Hqr as [q Hq | q r s _ IH Hadj Hs].
  - exact Hpq.
  - eapply linked_next; [apply IH, Hpq | exact Hadj | exact Hs].
Qed.

Lemma linked_first gr c p q r :
  colored gr c p -> adjacent p q -> linked gr c q r -> linked gr c p r.
Proof.
  intros Hp Hadj Hqr. eapply linked_trans; [|exact Hqr].
  eapply linked_next; [apply linked_here, Hp | exact Hadj |].
  eapply linked_colored_l, Hqr.
Qed.

Lemma linked_sym gr c p q : linked gr c p q -> linked gr c q p.
Proof.
  induction 1 as [p Hp | p q r Hpq IH Hadj Hr].
  - apply linked_here, Hp.
  - eapply linked_first; [exact Hr | apply adjacent_sym, Hadj | exact IH].
Qed.

(** The four cells the recursion moves to, for a cell of the field. *)
Lemma neighbours_in_field x y :
  in_field (mkPosition x y) ->
  int_add x 1 = x + 1 /\ int_sub x 1 = x - 1
  /\ int_add y 1 = y + 1 /\ int_sub y 1 = y - 1.
Proof.
  unfold in_field, FieldWidth, FieldHeight. cbn. intros [Hx Hy].
  unfold int_add, int_sub.
  rewrite !wrap_id by (unfold is_int, int_min, int_max; lia). auto.
Qed.

Lemma in_field_test x y :
  (x <? 0) || (x >=? FieldWidth) || (y <? 0) || (y >=? FieldHeight) = false
  <-> in_field (mkPosition x y).
Proof. unfold in_field. cbn. lia. Qed.

Lemma adjacent_cases x y r :
  adjacent (mkPosition x y) r ->
  r = mkPosition (x + 1) y \/ r = mkPosition (x - 1) y
  \/ r = mkPosition x (y + 1) \/ r = mkPosition x (y - 1).
Proof.
  destruct r as [rx ry]. unfold adjacent. cbn.
  intros [[-> [->| ->]]|[-> [->| ->]]]; auto.
Qed.

(** One unfolding of the recursion, at a cell that is entered. *)
Lemma findConnectedGroup_enter n gr x y c v :
  colored gr c (mkPosition x y) -> mkPosition x y ∉ v ->
  findConnectedGroup (S n) gr x y c v =
    findConnectedGroup n gr x (y - 1) c
      (findConnectedGroup n gr x (y + 1) c
        (findConnectedGroup n gr (x - 1) y c
          (findConnectedGroup n gr (x + 1) y c ({[mkPosition x y]} ∪ v)))).
Proof.
  intros [Hin Hc] Hv. cbn [findConnectedGroup].
  destruct (neighbours_in_field x y Hin) as (-> & -> & -> & ->).
  apply in_field_test in Hin. rewrite Hin.
  rewrite (bool_decide_eq_true_2 _ Hc), (bool_decide_eq_false_2 _ Hv).
  reflexivity.
Qed.

Lemma findConnectedGroup_skip n gr x y c v :
  ~ (colored gr c (mkPosition x y) /\ mkPosition x y ∉ v) ->
  findConnectedGroup n gr x y c v = v.
Proof.
  intros Hno. destruct n as [|n]; [reflexivity|]. cbn [findConnectedGroup].
  destruct (_ || _ || _ || _) eqn:Hb; [reflexivity|].
  apply in_field_test in Hb.
  case_bool_decide as Hc; cbn [negb orb]; [|reflexivity].
  case_bool_decide as Hv; [reflexivity|].
  exfalso. apply Hno. split; [split|]; assumption.
Qed.

Lemma colored_dec gr c p (v : gset Position) : Decision (colored gr c p /\ p ∉ v).
Proof. unfold colored, in_field. apply _. Defined.

(** Whatever the fill adds is linked to the start cell, and nothing is
    ever taken out of the map. *)
Lemma findConnectedGroup_sound n gr c x y v :
  v ⊆ findConnectedGroup n gr x y c v
  /\ forall q, q ∈ findConnectedGroup n gr x y c v -> q ∉ v ->
               linked gr c (mkPosition x y) q.
Proof.
  revert x y v. induction n as [|n IH]; intros x y v.
  - cbn. split; [set_solver|]. intros q Hq Hn. contradiction.
  - destruct (colored_dec gr c (mkPosition x y) v) as [[Hc Hv]|Hno].
    + rewrite findConnectedGroup_enter by assumption.
      set (v0 := {[mkPosition x y]} ∪ v).
      destruct (IH (x + 1) y v0) as [S1 L1]. set (v1 := findConnectedGroup n gr (x + 1) y c v0) in *.
      destruct (IH (x - 1) y v1) as [S2 L2]. set (v2 := findConnectedGroup n gr (x - 1) y c v1) in *.
      destruct (IH x (y + 1) v2) as [S3 L3]. set (v3 := findConnectedGroup n gr x (y + 1) c v2) in *.
      destruct (IH x (y - 1) v3) as [S4 L4]. set (v4 := findConnectedGroup n gr x (y - 1) c v3) in *.
      split; [set_solver|].
      intros q Hq Hnv.
      assert (Hadj : forall r, r ∈ [mkPosition (x + 1) y; mkPosition (x - 1) y;
                                   mkPosition x (y + 1); mkPosition x (y - 1)] ->
                             adjacent (mkPosition x y) r).
      { intros r Hr. unfold adjacent. cbn.
        repeat (apply elem_of_cons in Hr; destruct Hr as [->|Hr]); cbn;
          try lia. inversion Hr. }
      destruct (decide (q ∈ v3)) as [H3|H3];
        [|eapply linked_first; [exact Hc | apply Hadj | apply L4; assumption]; set_solver].
      destruct (decide (q ∈ v2)) as [H2|H2];
        [|eapply linked_first; [exact Hc | apply Hadj | apply L3; assumption]; set_solver].
      destruct (decide (q ∈ v1)) as [H1|H1];
        [|eapply linked_first; [exact Hc | apply Hadj | apply L2; assumption]; set_solver].
      destruct (decide (q ∈ v0)) as [H0|H0];
        [|eapply linked_first; [exact Hc | apply Hadj | apply L1; assumption]; set_solver].
      assert (q = mkPosition x y) as -> by set_solver.
      apply linked_here, Hc.
    + rewrite findConnectedGroup_skip by exact Hno.
      split; [set_solver|]. intros q Hq Hn. contradiction.
Qed.

Lemma all_cells_spec p : p ∈ all_cells <-> in_field p.
Proof. unfold all_cells. rewrite elem_of_list_to_set. apply elem_of_scan_order. Qed.

Lemma all_cells_size : size all_cells = 72%nat.
Proof. vm_compute. reflexivity. Qed.

Lemma unvisited_shrinks p v w :
  in_field p -> p ∉ v -> {[p]} ∪ v ⊆ w ->
  (size (all_cells ∖ w) < size (all_cells ∖ v))%nat.
Proof.
  intros Hin Hv Hsub. apply subset_size. split.
  - set_solver.
  - intros Hback. apply all_cells_spec in Hin.
    assert (Hp : p ∈ all_cells ∖ v) by set_solver.
    apply Hback in Hp. set_solver.
Qed.

(** With enough depth, the fill takes the start cell if it has the color,
    and the neighbours of that color of every cell it took. *)
Lemma findConnectedGroup_closed n gr c x y v :
  (size (all_cells ∖ v) < n)%nat ->
  (colored gr c (mkPosition x y) -> mkPosition x y ∈ findConnectedGroup n gr x y c v)
  /\ forall q r, q ∈ findConnectedGroup n gr x y c v -> q ∉ v ->
                 adjacent q r -> colored gr c r ->
                 r ∈ findConnectedGroup n gr x y c v.
Proof.
  revert x y v. induction n as [|n IH]; intros x y v Hfuel; [lia|].
  destruct (colored_dec gr c (mkPosition x y) v) as [[Hc Hv]|Hno].
  - rewrite findConnectedGroup_enter by assumption.
    set (v0 := {[mkPosition x y]} ∪ v).
    pose proof (findConnectedGroup_sound n gr c (x + 1) y v0) as [S1 _].
    set (v1 := findConnectedGroup n gr (x + 1) y c v0) in *.
    pose proof (findConnectedGroup_sound n gr c (x - 1) y v1) as [S2 _].
    set (v2 := findConnectedGroup n gr (x - 1) y c v1) in *.
    pose proof (findConnectedGroup_sound n gr c x (y + 1) v2) as [S3 _].
    set (v3 := findConnectedGroup n gr x (y + 1) c v2) in *.
    pose proof (findConnectedGroup_sound n gr c x (y - 1) v3) as [S4 _].
    set (v4 := findConnectedGroup n gr x (y - 1) c v3) in *.
    assert (Hin : in_field (mkPosition x y)) by apply Hc.
    assert (F0 : (size (all_cells ∖ v0) < n)%nat).
    { pose proof (unvisited_shrinks _ v v0 Hin Hv ltac:(set_solver)). lia. }
    assert (F1 : (size (all_cells ∖ v1) < n)%nat).
    { pose proof (unvisited_shrinks _ v v1 Hin Hv ltac:(set_solver)). lia. }
    assert (F2 : (size (all_cells ∖ v2) < n)%nat).
    { pose proof (unvisited_shrinks _ v v2 Hin Hv ltac:(set_solver)). lia. }
    assert (F3 : (size (all_cells ∖ v3) < n)%nat).
    { pose proof (unvisited_shrinks _ v v3 Hin Hv ltac:(set_solver)). lia. }
    destruct (IH (x + 1) y v0 F0) as [T1 C1]. fold v1 in T1, C1.
    destruct (IH (x - 1) y v1 F1) as [T2 C2]. fold v2 in T2, C2.
    destruct (IH x (y + 1) v2 F2) as [T3 C3]. fold v3 in T3, C3.
    destruct (IH x (y - 1) v3 F3) as [T4 C4]. fold v4 in T4, C4.
    split; [set_solver|].
    intros q r Hq Hnv Hadj Hr.
    destruct (decide (q ∈ v3)) as [H3|H3]; [|eapply C4; eassumption].
    destruct (decide (q ∈ v2)) as [H2|H2]; [|apply S4; eapply C3; eassumption].
    destruct (decide (q ∈ v1)) as [H1|H1]; [|apply S4, S3; eapply C2; eassumption].
    destruct (decide (q ∈ v0)) as [H0|H0]; [|apply S4, S3, S2; eapply C1; eassumption].
    assert (q = mkPosition x y) as -> by set_solver.
    destruct (adjacent_cases x y r Hadj) as [->|[->|[->| ->]]].
    + apply S4, S3, S2, T1, Hr.
    + apply S4, S3, T2, Hr.
    + apply S4, T3, Hr.
    + apply T4, Hr.
  - rewrite findConnectedGroup_skip by exact Hno.
    split.
    + intros Hc. destruct (decide (mkPosition x y ∈ v)) as [Hv|Hv]; [exact Hv|].
      exfalso. apply Hno. split; assumption.
    + intros q r Hq Hn. contradiction.
Qed.

Lemma findConnectedGroup_group n gr x y q :
  (72 < n)%nat ->
  q ∈ findConnectedGroup n gr x y (cell gr x y) ∅
  <-> linked gr (cell gr x y) (mkPosition x y) q.
Proof.
  intros Hn. set (c := cell gr x y).
  destruct (findConnectedGroup_sound n gr c x y ∅) as [_ Hsound].
  destruct (findConnectedGroup_closed n gr c x y ∅) as [Hseed Hclosed].
  { rewrite difference_empty_L, all_cells_size. exact Hn. }
  split.
  - intros Hq. apply Hsound; [exact Hq | apply not_elem_of_empty].
  - intros Hl. remember (mkPosition x y) as s eqn:Es.
    induction Hl as [p Hp | p q r _ IH Hadj Hr]; subst.
    + apply Hseed, Hp.
    + eapply Hclosed; [apply IH; auto | apply not_elem_of_empty
                       | exact Hadj | exact Hr].
Qed.

Lemma fill_depth_enough : (72 < fill_depth)%nat.
Proof. vm_compute. lia. Qed.

(** The flood fill computes the connected group of its seed. *)
Lemma flood_group gr p : group_of gr p (flood gr p).
Proof.
  intros q. destruct p as [x y]. apply findConnectedGroup_group, fill_depth_enough.
Qed.

(** ** Clearing *)

Lemma mark_visited_spec (group visited : gset Position) q :
  q ∈ mark_visited group visited <-> q ∈ group \/ q ∈ visited.
Proof.
  unfold mark_visited. rewrite <- (elem_of_elements group).
  induction (elements group) as [|a l IH]; cbn.
  - rewrite elem_of_nil. tauto.
  - rewrite elem_of_union, elem_of_singleton, IH, elem_of_cons. tauto.
Qed.

Lemma clear_cells_spec (l : list Position) gr :
  grid_wf gr ->
  (forall q, q ∈ l -> in_field q) ->
  grid_wf (foldr (fun p gr' => set_cell gr' (X p) (Y p) Empty) gr l)
  /\ forall q, in_field q ->
       color_at (foldr (fun p gr' => set_cell gr' (X p) (Y p) Empty) gr l) q
       = if decide (q ∈ l) then Empty else color_at gr q.
Proof.
  intros Hwf. induction l as [|a l IH]; intros Hl; cbn [foldr].
  - split; [exact Hwf|]. intros q _. rewrite decide_False by apply not_elem_of_nil.
    reflexivity.
  - destruct IH as [Hwf' Hcells].
    { intros q Hq. apply Hl. right. exact Hq. }
    split; [apply set_cell_wf, Hwf'|].
    intros q Hq. unfold color_at.
    destruct (decide (q = a)) as [->|Hne].
    + rewrite cell_set_cell_eq; [|exact Hwf'|].
      * rewrite decide_True by left. reflexivity.
      * destruct a. apply Hl. left.
    + assert (Ha : in_field a) by (apply Hl; left).
      rewrite cell_set_cell_ne.
      * fold (color_at (foldr (fun p gr' => set_cell gr' (X p) (Y p) Empty) gr l) q).
        rewrite (Hcells q Hq).
        destruct (decide (q ∈ l)) as [Hin|Hin].
        -- rewrite decide_True by (right; exact Hin). reflexivity.
        -- rewrite decide_False; [reflexivity|].
           intros Hc. apply elem_of_cons in Hc. tauto.
      * apply Ha.
      * apply Ha.
      * apply Hq.
      * apply Hq.
      * intros [= Ex Ey]. apply Hne. destruct q, a. cbn in *. congruence.
Qed.

Lemma clear_group_spec gr (group : gset Position) :
  grid_wf gr ->
  (forall q, q ∈ group -> in_field q) ->
  grid_wf (clear_group gr group)
  /\ forall q, in_field q ->
       color_at (clear_group gr group) q
       = if decide (q ∈ group) then Empty else color_at gr q.
Proof.
  intros Hwf Hin.
  destruct (clear_cells_spec (elements group) gr Hwf) as [Hwf' Hcells].
  { intros q Hq. apply Hin, elem_of_elements, Hq. }
  split; [exact Hwf'|].
  intros q Hq. unfold clear_group. rewrite (Hcells q Hq).
  destruct (decide (q ∈ group)) as [Hg|Hg].
  - rewrite decide_True by (apply elem_of_elements, Hg). reflexivity.
  - rewrite decide_False; [reflexivity|]. rewrite elem_of_elements. exact Hg.
Qed.

Lemma group_of_unique gr p (S1 S2 : gset Position) :
  group_of gr p S1 -> group_of gr p S2 -> S1 = S2.
Proof. intros H1 H2. apply set_eq. intros q. rewrite (H1 q), (H2 q). tauto. Qed.

(** Cells of one group have the same group. *)
Lemma flood_same_group gr p q : q ∈ flood gr p -> flood gr q = flood gr p.
Proof.
  intros Hq. apply flood_group in Hq.
  assert (Hc : color_at gr q = color_at gr p) by apply (linked_colored_r _ _ _ _ Hq).
  apply set_eq. intros r.
  rewrite (flood_group gr q r), (flood_group gr p r), Hc. split.
  - apply linked_trans, Hq.
  - apply linked_trans, linked_sym, Hq.
Qed.

Section ScanStep.

Variables (gr0 gr : Grid) (visited : gset Position).

Hypothesis closed :
  forall q r, q ∈ visited -> linked gr0 (color_at gr0 q) q r -> r ∈ visited.
Hypothesis cells :
  forall q, in_field q ->
    color_at gr q =
      if decide (q ∈ visited /\ clearable gr0 q) then Empty else color_at gr0 q.

Lemma unvisited_cell q : in_field q -> q ∉ visited -> color_at gr q = color_at gr0 q.
Proof using cells.
  intros Hq Hv. rewrite (cells q Hq). apply decide_False. tauto.
Qed.

Lemma occupied_cell q :
  in_field q -> color_at gr q <> Empty -> color_at gr q = color_at gr0 q.
Proof using cells.
  intros Hq Hne. rewrite (cells q Hq) in *.
  destruct (decide _); [contradiction | reflexivity].
Qed.

Lemma linked_now_then c a b :
  c <> Empty -> linked gr c a b -> linked gr0 c a b.
Proof using cells.
  intros Hc. assert (Hcol : forall q, colored gr c q -> colored gr0 c q).
  { intros q [Hq Hcq]. split; [exact Hq|].
    rewrite <- occupied_cell; [exact Hcq | exact Hq | congruence]. }
  induction 1 as [a Ha | a b r _ IH Hadj Hr].
  - apply linked_here, Hcol, Ha.
  - eapply linked_next; [exact IH | exact Hadj | apply Hcol, Hr].
Qed.

Lemma linked_then_now c s b :
  s ∉ visited -> linked gr0 c s b -> (b ∉ visited) /\ linked gr c s b.
Proof using closed cells.
  intros Hs Hl. induction Hl as [a Ha | a b r Hab IH Hadj Hr].
  - split; [exact Hs|]. apply linked_here.
    destruct Ha as [Hin Hca]. split; [exact Hin|].
    rewrite unvisited_cell; assumption.
  - destruct (IH Hs) as [Hb Hlb].
    assert (Hrv : r ∉ visited).
    { intros Hrv. apply Hb. apply (closed r b Hrv).
      destruct Hr as [Hrin Hrc]. rewrite Hrc.
      eapply linked_next; [apply linked_here; split; assumption
                          | apply adjacent_sym, Hadj
                          | eapply linked_colored_r, Hab]. }
    split; [exact Hrv|].
    eapply linked_next; [exact Hlb | exact Hadj |].
    destruct Hr as [Hrin Hrc]. split; [exact Hrin|].
    rewrite unvisited_cell; assumption.
Qed.

(** At an unvisited occupied seed, the group found on the grid being
    edited is the group the seed had at entry. *)
Lemma flood_now_then s :
  in_field s -> s ∉ visited -> color_at gr s <> Empty ->
  flood gr s = flood gr0 s.
Proof using closed cells.
  intros Hin Hs Hocc.
  assert (Hc : color_at gr s = color_at gr0 s) by (apply unvisited_cell; assumption).
  apply set_eq. intros q.
  rewrite (flood_group gr s q), (flood_group gr0 s q), Hc. split.
  - apply linked_now_then. congruence.
  - intros Hl. apply (linked_then_now _ _ _ Hs Hl).
Qed.

End ScanStep.

Lemma clear_step_enter gr visited cleared s :
  color_at gr s <> Empty -> s ∉ visited ->
  clear_step (gr, visited, cleared) s =
    if Z.of_nat (size (flood gr s)) >=? MinChain
    then (clear_group gr (flood gr s), mark_visited (flood gr s) visited, true)
    else (gr, mark_visited (flood gr s) visited, cleared).
Proof.
  intros Hocc Hs. unfold clear_step, flood, color_at in *.
  rewrite (bool_decide_eq_false_2 _ Hocc), (bool_decide_eq_false_2 _ Hs).
  reflexivity.
Qed.

Lemma clear_step_skip gr visited cleared s :
  color_at gr s = Empty \/ s ∈ visited ->
  clear_step (gr, visited, cleared) s = (gr, visited, cleared).
Proof.
  intros Hcase. unfold clear_step, color_at in *.
  destruct Hcase as [He|Hv].
  - rewrite (bool_decide_eq_true_2 _ He). reflexivity.
  - rewrite (bool_decide_eq_true_2 _ Hv), andb_false_r. reflexivity.
Qed.

Lemma clear_step_inv gr0 done st s :
  in_field s ->
  scan_inv gr0 done st -> scan_inv gr0 (done ++ [s]) (clear_step st s).
Proof.
  destruct st as [[gr visited] cleared]. unfold scan_inv. cbn [fst snd].
  intros Hin (Hwf & Hocc & Hclosed & Hdone & Hcells & Hflag).
  destruct (decide (color_at gr s <> Empty /\ s ∉ visited)) as [[Hne Hs]|Hskip].
  - rewrite clear_step_enter by assumption.
    rewrite (flood_now_then gr0 gr visited Hclosed Hcells s Hin Hs Hne).
    assert (Hc0 : color_at gr0 s <> Empty).
    { rewrite <- (unvisited_cell gr0 gr visited Hcells s Hin Hs). exact Hne. }
    set (G := flood gr0 s).
    assert (HsG : s ∈ G).
    { apply flood_group, linked_here. split; [exact Hin | reflexivity]. }
    assert (HG : forall q, q ∈ G -> in_field q /\ color_at gr0 q = color_at gr0 s).
    { intros q Hq. apply flood_group in Hq. apply (linked_colored_r _ _ _ _ Hq). }
    assert (HGbig : forall q, q ∈ G -> clearable gr0 q <-> clearable gr0 s).
    { intros q Hq. unfold clearable. rewrite (flood_same_group gr0 s q Hq). tauto. }
    assert (V3 : forall q, q ∈ mark_visited G visited ->
                           in_field q /\ color_at gr0 q <> Empty).
    { intros q Hq. apply mark_visited_spec in Hq. destruct Hq as [Hq|Hq].
      - destruct (HG q Hq) as [Hqin Hqc]. split; [exact Hqin | congruence].
      - apply Hocc, Hq. }
    assert (V4 : forall q r, q ∈ mark_visited G visited ->
                             linked gr0 (color_at gr0 q) q r ->
                             r ∈ mark_visited G visited).
    { intros q r Hq Hl. apply mark_visited_spec.
      apply mark_visited_spec in Hq. destruct Hq as [Hq|Hq].
      - left. destruct (HG q Hq) as [_ Hqc]. rewrite Hqc in Hl.
        apply flood_group. eapply linked_trans; [|exact Hl].
        apply flood_group, Hq.
      - right. eapply Hclosed; eassumption. }
    assert (V5 : forall q, q ∈ done ++ [s] -> in_field q -> color_at gr0 q <> Empty ->
                           q ∈ mark_visited G visited).
    { intros q Hq Hqin Hqc. apply mark_visited_spec.
      apply elem_of_app in Hq. destruct Hq as [Hq|Hq].
      - right. apply Hdone; assumption.
      - left. apply list_elem_of_singleton in Hq. subst q. exact HsG. }
    destruct (Z.of_nat (size G) >=? MinChain) eqn:Hsize; cbn [fst snd].
    + assert (Hbig : clearable gr0 s) by (apply Z.geb_le in Hsize; exact Hsize).
      destruct (clear_group_spec gr G Hwf) as [Hwf' Hcl].
      { intros q Hq. apply HG, Hq. }
      split; [exact Hwf'|]. split; [exact V3|]. split; [exact V4|]. split; [exact V5|].
      split.
      * intros q Hq. rewrite (Hcl q Hq).
        destruct (decide (q ∈ G)) as [HqG|HqG].
        -- rewrite decide_True; [reflexivity|].
           split; [apply mark_visited_spec; left; exact HqG | apply HGbig; assumption].
        -- rewrite (Hcells q Hq). apply decide_ext.
           rewrite mark_visited_spec. tauto.
      * split; [|reflexivity]. intros _. exists s.
        split; [apply mark_visited_spec; left; exact HsG | exact Hbig].
    + assert (Hsmall : ~ clearable gr0 s).
      { unfold clearable. fold G. rewrite Z.geb_leb in Hsize.
        apply Z.leb_gt in Hsize. lia. }
      assert (Hsame : forall q, q ∈ mark_visited G visited /\ clearable gr0 q
                                <-> q ∈ visited /\ clearable gr0 q).
      { intros q. rewrite mark_visited_spec. split; [|tauto].
        intros [[HqG|Hqv] Hqc]; [|tauto].
        exfalso. apply Hsmall, (HGbig q HqG), Hqc. }
      split; [exact Hwf|]. split; [exact V3|]. split; [exact V4|]. split; [exact V5|].
      split.
      * intros q Hq. rewrite (Hcells q Hq). apply decide_ext. symmetry. apply Hsame.
      * rewrite Hflag. split; intros (q & Hq); exists q; apply Hsame; exact Hq.
  - rewrite clear_step_skip.
    + cbn [fst snd].
      split; [exact Hwf|]. split; [exact Hocc|]. split; [exact Hclosed|].
      split; [|split; [exact Hcells | exact Hflag]].
      intros q Hq Hqin Hqc. apply elem_of_app in Hq. destruct Hq as [Hq|Hq].
      * apply Hdone; assumption.
      * apply list_elem_of_singleton in Hq. subst q.
        destruct (decide (s ∈ visited)) as [Hv|Hv]; [exact Hv|].
        exfalso. apply Hskip. split; [|exact Hv].
        rewrite (unvisited_cell gr0 gr visited Hcells s Hin Hv). exact Hqc.
    + destruct (decide (color_at gr s = Empty)) as [He|He]; [left; exact He|].
      right. destruct (decide (s ∈ visited)) as [Hv|Hv]; [exact Hv|].
      exfalso. apply Hskip. split; assumption.
Qed.

Lemma clear_fold_inv gr0 ps done st :
  (forall p, p ∈ ps -> in_field p) ->
  scan_inv gr0 done st -> scan_inv gr0 (done ++ ps) (fold_left clear_step ps st).
Proof.
  revert done st. induction ps as [|a ps IH]; intros done st Hps Hinv.
  - rewrite app_nil_r. exact Hinv.
  - cbn [fold_left]. rewrite cons_middle, app_assoc.
    apply IH.
    + intros p Hp. apply Hps. right. exact Hp.
    + apply clear_step_inv; [apply Hps; left | exact Hinv].
Qed.

(** What one clearing pass does to a grid: the occupied cells whose group
    reaches [MinChain] become empty, every other cell keeps its color, and
    the returned flag says whether some group was cleared. *)
Lemma clear_scan_spec gr0 :
  grid_wf gr0 ->
  grid_wf (clear_scan gr0).1.1
  /\ (forall q, in_field q ->
        color_at (clear_scan gr0).1.1 q =
          if decide (color_at gr0 q <> Empty /\ clearable gr0 q)
          then Empty else color_at gr0 q)
  /\ ((clear_scan gr0).2 = true
      <-> exists q, in_field q /\ color_at gr0 q <> Empty /\ clearable gr0 q).
Proof.
  intros Hwf. unfold clear_scan.
  assert (Hinit : scan_inv gr0 [] (gr0, ∅, false)).
  { unfold scan_inv. cbn [fst snd].
    split; [exact Hwf|].
    split; [intros q Hq; exfalso; exact (not_elem_of_empty q Hq)|].
    split; [intros q r Hq; exfalso; exact (not_elem_of_empty q Hq)|].
    split; [intros q Hq; exfalso; exact (not_elem_of_nil q Hq)|]. split.
    - intros q Hq. rewrite decide_False; [reflexivity|].
      intros [Hq' _]. exact (not_elem_of_empty q Hq').
    - split; [discriminate|]. intros (q & Hq & _).
      exfalso. exact (not_elem_of_empty q Hq). }
  pose proof (clear_fold_inv gr0 scan_order [] (gr0, ∅, false)
                (fun p Hp => proj1 (elem_of_scan_order p) Hp) Hinit) as Hfin.
  rewrite app_nil_l in Hfin.
  generalize dependent (fold_left clear_step scan_order (gr0, ∅, false)).
  intros st (Hwf' & Hocc & _ & Hdone & Hcells & Hflag).
  assert (Hvis : forall q, in_field q -> (q ∈ st.1.2 <-> color_at gr0 q <> Empty)).
  { intros q Hq. split; [apply Hocc|].
    apply Hdone; [apply elem_of_scan_order|]; exact Hq. }
  split; [exact Hwf'|]. split.
  - intros q Hq. rewrite (Hcells q Hq). apply decide_ext.
    rewrite (Hvis q Hq). tauto.
  - rewrite Hflag. split.
    + intros (q & Hq & Hc). destruct (Hocc q Hq) as [Hin Hne]. exists q. auto.
    + intros (q & Hin & Hne & Hc). exists q. split; [apply Hvis; assumption | exact Hc].
Qed.

(** C6: one call of [clearPuyos] empties every cell of every group of at
    least [MinChain] = 4 cells, and leaves every cell of a group of at most
    3 cells as it was. *)
Theorem clearPuyos_clears_exactly_large_groups
    (g : Game) (p : Position) (S : gset Position) :
  grid_wf (grid_of g) ->
  in_field p ->
  color_at (grid_of g) p <> Empty ->
  group_of (grid_of g) p S ->
  (4 <= size S ->
   forall q, q ∈ S -> color_at (grid_of (clearPuyos g).2) q = Empty)%nat
  /\ (size S <= 3 ->
      forall q, q ∈ S ->
        color_at (grid_of (clearPuyos g).2) q = color_at (grid_of g) q
        /\ color_at (grid_of g) q <> Empty)%nat.
Proof.
  intros Hwf Hin Hocc HS.
  assert (ES : S = flood (grid_of g) p)
    by (eapply group_of_unique; [exact HS | apply flood_group]).
  destruct (clear_scan_spec (grid_of g) Hwf) as (_ & Hcells & _).
  rewrite clearPuyos_unfold. cbn [snd]. unfold grid_of at 1 3. cbn [GField FGrid set_Field].
  assert (Hq : forall q, q ∈ S ->
             in_field q /\ color_at (grid_of g) q <> Empty
             /\ flood (grid_of g) q = S).
  { intros q HqS. pose proof HqS as Hl. apply HS in Hl.
    destruct (linked_colored_r _ _ _ _ Hl) as [Hqin Hqc].
    split; [exact Hqin|]. split; [congruence|].
    rewrite ES in *. apply flood_same_group, HqS. }
  split; intros Hsize q HqS; destruct (Hq q HqS) as (Hqin & Hqc & Hqf);
    rewrite (Hcells q Hqin).
  - apply decide_True. split; [exact Hqc|].
    unfold clearable, MinChain. rewrite Hqf. lia.
  - split; [|exact Hqc]. apply decide_False. intros [_ Hc].
    unfold clearable, MinChain in Hc. rewrite Hqf in Hc. lia.
Qed.

Lemma mixed_game_wf : grid_wf (grid_of mixed_game).
Proof. split; [reflexivity|]. cbn. repeat constructor. Qed.

Lemma clearPuyos_clears_exactly_large_groups_witness :
  color_at (grid_of (clearPuyos mixed_game).2) (mkPosition 2 11) = Empty
  /\ color_at (grid_of (clearPuyos mixed_game).2) (mkPosition 5 10) = Blue.
Proof.
  split.
  - destruct (clearPuyos_clears_exactly_large_groups mixed_game (mkPosition 0 11)
                (flood (grid_of mixed_game) (mkPosition 0 11))) as [Hbig _].
    + exact mixed_game_wf.
    + vm_compute. repeat split; discriminate.
    + vm_compute. discriminate.
    + apply flood_group.
    + apply Hbig; vm_compute; [lia | reflexivity].
  - destruct (clearPuyos_clears_exactly_large_groups mixed_game (mkPosition 5 11)
                (flood (grid_of mixed_game) (mkPosition 5 11))) as [_ Hsmall].
    + exact mixed_game_wf.
    + vm_compute. repeat split; discriminate.
    + vm_compute. discriminate.
    + apply flood_group.
    + destruct (Hsmall ltac:(vm_compute; lia) (mkPosition 5 10)) as [Hsame _].
      * vm_compute. reflexivity.
      * rewrite Hsame. vm_compute. reflexivity.
Defined.

(** ** Chain counting *)

Lemma has_large_group_clearable gr :
  has_large_group gr
  <-> exists q, in_field q /\ color_at gr q <> Empty /\ clearable gr q.
Proof.
  unfold has_large_group, clearable, MinChain. split.
  - intros (p & S & Hin & Hocc & HS & Hsize). exists p.
    rewrite <- (group_of_unique gr p S _ HS (flood_group gr p)).
    split; [exact Hin|]. split; [exact Hocc | lia].
  - intros (q & Hin & Hocc & Hsize). exists q, (flood gr q).
    split; [exact Hin|]. split; [exact Hocc|]. split; [apply flood_group | lia].
Qed.

Lemma clearPuyos_flag g :
  grid_wf (grid_of g) ->
  ((clearPuyos g).1 = true <-> has_large_group (grid_of g)).
Proof.
  intros Hwf. rewrite clearPuyos_unfold, has_large_group_clearable. cbn [fst].
  apply clear_scan_spec, Hwf.
Qed.

Lemma ProcessChainStep_clearing speed g :
  State g = StateClearing ->
  TotalChains (ProcessChainStep speed g).2
  = if (clearPuyos g).1 then int_add (TotalChains g) 1 else TotalChains g.
Proof.
  intros Hst. unfold ProcessChainStep. rewrite Hst.
  pose proof (clearPuyos_keeps g) as (Hk & _).
  destruct (clearPuyos g) as [[] g1]; cbn in *; rewrite Hk; reflexivity.
Qed.

Lemma ProcessChainStep_other speed g :
  State g <> StateClearing ->
  TotalChains (ProcessChainStep speed g).2 = TotalChains g.
Proof.
  intros Hst. unfold ProcessChainStep.
  destruct (State g); [reflexivity | contradiction |].
  destruct (hasClearablePuyos (applyGravity g)); cbn [snd]; [reflexivity|].
  destruct (SpawnNewPair_keeps
              (set_State StateNormal (calculateScore speed (applyGravity g))))
    as (_ & _ & _ & _ & -> & _).
  cbn [TotalChains set_State].
  destruct (calculateScore_keeps speed (applyGravity g)) as (-> & _).
  reflexivity.
Qed.

(** C10: [TotalChains] goes up by exactly one on a [ProcessChainStep] taken
    in [StateClearing] whose pass had a group of at least four cells to
    remove, stays put on a Clearing step that found none, and is left alone
    by every other step and operation of the core. *)
Theorem TotalChains_counts_clearing_steps (speed : Z -> Z) (g : Game) :
  grid_wf (grid_of g) ->
  is_int (TotalChains g + 1) ->
  (State g = StateClearing ->
   (has_large_group (grid_of g) ->
    TotalChains (ProcessChainStep speed g).2 = TotalChains g + 1)
   /\ (~ has_large_group (grid_of g) ->
       TotalChains (ProcessChainStep speed g).2 = TotalChains g))
  /\ (State g <> StateClearing ->
      TotalChains (ProcessChainStep speed g).2 = TotalChains g)
  /\ (forall dx dy rotate, TotalChains (Move g dx dy rotate).2 = TotalChains g)
  /\ TotalChains (Drop g).2 = TotalChains g
  /\ TotalChains (HardDrop g) = TotalChains g
  /\ TotalChains (LockPair g) = TotalChains g
  /\ TotalChains (SpawnNewPair g) = TotalChains g
  /\ TotalChains (TogglePause g) = TotalChains g.
Proof.
  intros Hwf Hmax.
  split; [|split; [apply ProcessChainStep_other|]].
  - intros Hst. rewrite (ProcessChainStep_clearing speed g Hst).
    pose proof (clearPuyos_flag g Hwf) as Hflag.
    split; intros Hgrp.
    + apply Hflag in Hgrp. rewrite Hgrp. apply wrap_id, Hmax.
    + destruct ((clearPuyos g).1) eqn:E; [|reflexivity].
      exfalso. apply Hgrp, Hflag. reflexivity.
  - split; [|split; [|split; [|split; [|split]]]].
    + intros dx dy rotate. apply (same_but_piece_fields _ _ (Move_frame g dx dy rotate)).
    + apply (same_but_piece_fields _ _ (Drop_frame g)).
    + apply (same_but_piece_fields _ _ (HardDrop_frame g)).
    + apply LockPair_keeps.
    + apply SpawnNewPair_keeps.
    + apply TogglePause_keeps.
Qed.

Lemma TotalChains_counts_clearing_steps_witness :
  TotalChains (ProcessChainStep (fun _ => 0) mixed_game).2 = TotalChains mixed_game + 1
  /\ TotalChains (LockPair mixed_game) = TotalChains mixed_game.
Proof.
  destruct (TotalChains_counts_clearing_steps (fun _ => 0) mixed_game)
    as (Hclr & _ & _ & _ & _ & Hlock & _).
  - exact mixed_game_wf.
  - vm_compute. split; discriminate.
  - split; [|exact Hlock].
    apply Hclr; [reflexivity|].
    exists (mkPosition 0 11), (flood (grid_of mixed_game) (mkPosition 0 11)).
    split; [vm_compute; repeat split; discriminate|].
    split; [vm_compute; discriminate|].
    split; [apply flood_group | vm_compute; lia].
Defined.
